(** * memory-ops: quota enforcement and context reduction

    A shallow embedding of [app/rate_limit.py] (the sliding-window rate
    limiter), of the part of [app/config.py] it reads, and of
    [app/services/qr_retriever.py] (the context reducer), followed by the
    properties of the specification proved, or refuted, on that embedding.

    Conventions.
    - Python [int] is [Z]; [//] is [Z.div] (both round towards minus
      infinity for a positive divisor).
    - Clock readings ([time()]) are modelled as integers with exact
      arithmetic, as in the repository's tests, which drive the clock with
      0, 1, 2, ...
    - [Dict[str, Quota]] is a [gmap string Quota]; a [deque] is a list whose
      head is the left end.
    - A function that can raise returns a value of an error type. *)

From Stdlib Require Import ZArith QArith Lia Ascii String.
From stdpp Require Import base option list sorting strings gmap.

#[local] Open Scope Z_scope.

(** ** app/config.py *)

Module Config.

(** The fields of [Settings] read by the limiter and by the reducer. *)
Record Settings := {
  top_k : Z;
  requests_per_minute : Z;
  tokens_per_minute : Z;
  rate_limit_tpm : Z
}.

(** The defaults of the [Field(...)] declarations. *)
Definition default_settings : Settings :=
  {| top_k := 64;
     requests_per_minute := 60;
     tokens_per_minute := 20000;
     rate_limit_tpm := 20000 |}.

End Config.

(** Python's [a or b] on integers: [a] when it is truthy (non-zero). *)
Definition py_or (a b : Z) : Z := if a =? 0 then b else a.

(** ** app/rate_limit.py *)

Module RateLimit.

(** [Quota]: the two deques of one identity. *)
Record Quota := {
  reqs : list Z;
  tokens : list (Z * Z)
}.

Record RateLimiter := {
  requests_per_minute : Z;
  tokens_per_minute : Z;
  _store : gmap string Quota
}.

(** [fastapi.HTTPException], with the fields [check] sets. *)
Record HTTPException := {
  status_code : Z;
  detail : string;
  headers : list (string * string)
}.

Definition HTTP_429_TOO_MANY_REQUESTS : Z := 429.

(** The exception of lines 89-93 (REQUEST_RATE_EXCEEDED). *)
Definition REQUEST_RATE_EXCEEDED : HTTPException :=
  {| status_code := HTTP_429_TOO_MANY_REQUESTS;
     detail := "Rate limit exceeded: too many requests per minute";
     headers := [("Retry-After", "60")] |}.

(** The exception of lines 97-101 (TOKEN_RATE_EXCEEDED). *)
Definition TOKEN_RATE_EXCEEDED : HTTPException :=
  {| status_code := HTTP_429_TOO_MANY_REQUESTS;
     detail := "Rate limit exceeded: too many tokens per minute";
     headers := [("Retry-After", "60")] |}.

(** The outcome of one [check] call: it returns [None] or raises. *)
Inductive Outcome :=
| Returned
| Raised (e : HTTPException).

(** [RateLimiter.__init__]. *)
Definition __init__ (settings : Config.Settings)
    (requests_per_minute tokens_per_minute : Z) : RateLimiter :=
  {| requests_per_minute := requests_per_minute;
     tokens_per_minute :=
       py_or tokens_per_minute
         (py_or (Config.tokens_per_minute settings) (Config.rate_limit_tpm settings));
     _store := ∅ |}.

(** [get_rate_limiter]. *)
Definition get_rate_limiter (settings : Config.Settings) : RateLimiter :=
  __init__ settings (Config.requests_per_minute settings)
    (py_or (Config.tokens_per_minute settings) (Config.rate_limit_tpm settings)).

Definition set_store (self : RateLimiter) (m : gmap string Quota) : RateLimiter :=
  {| requests_per_minute := requests_per_minute self;
     tokens_per_minute := tokens_per_minute self;
     _store := m |}.

(** [_get_quota]: the identity's record, created empty when absent.  The
    record lives in the store; the caller's later mutations of it are
    written back with [set_store]. *)
Definition _get_quota (self : RateLimiter) (identity : string)
    : RateLimiter * Quota :=
  match _store self !! identity with
  | Some q => (self, q)
  | None =>
      let q := {| reqs := []; tokens := [] |} in
      (set_store self (<[identity := q]> (_store self)), q)
  end.

(** [while quota.reqs and quota.reqs[0] <= window_start: popleft()]. *)
Fixpoint purge_reqs (window_start : Z) (d : list Z) : list Z :=
  match d with
  | [] => []
  | t :: d' => if t <=? window_start then purge_reqs window_start d' else d
  end.

(** [while quota.tokens and quota.tokens[0][0] <= window_start: popleft()]. *)
Fixpoint purge_tokens (window_start : Z) (d : list (Z * Z)) : list (Z * Z) :=
  match d with
  | [] => []
  | e :: d' => if e.1 <=? window_start then purge_tokens window_start d' else d
  end.

(** [sum(t for _, t in quota.tokens)]. *)
Definition total_tokens (d : list (Z * Z)) : Z :=
  foldr (λ e acc, e.2 + acc) 0 d.

(** [check], with the clock reading [now] of line 79 as an argument. *)
Definition check (now : Z) (self : RateLimiter) (identity : string) (tokens_used : Z)
    : RateLimiter * Outcome :=
  let '(self, quota) := _get_quota self identity in
  let window_start := now - 60 in
  let quota := {| reqs := purge_reqs window_start (reqs quota);
                  tokens := purge_tokens window_start (tokens quota) |} in
  let self := set_store self (<[identity := quota]> (_store self)) in
  if (0 <? requests_per_minute self)
     && (requests_per_minute self <=? Z.of_nat (length (reqs quota)))
  then (self, Raised REQUEST_RATE_EXCEEDED)
  else
    let total := total_tokens (tokens quota) in
    if (0 <? tokens_per_minute self)
       && (tokens_per_minute self <? total + tokens_used)
    then (self, Raised TOKEN_RATE_EXCEEDED)
    else
      let quota := {| reqs := reqs quota ++ [now];
                      tokens := tokens quota ++ [(now, tokens_used)] |} in
      (set_store self (<[identity := quota]> (_store self)), Returned).

(** The quota [check] works on, and the two mutations it performs. *)
Definition empty_quota : Quota := {| reqs := []; tokens := [] |}.

Definition quota_of (self : RateLimiter) (ident : string) : Quota :=
  default empty_quota (_store self !! ident).

Definition purge (window_start : Z) (q : Quota) : Quota :=
  {| reqs := purge_reqs window_start (reqs q);
     tokens := purge_tokens window_start (tokens q) |}.

Definition record (q : Quota) (now tokens_used : Z) : Quota :=
  {| reqs := reqs q ++ [now];
     tokens := tokens q ++ [(now, tokens_used)] |}.

(** *** Traces of [check] calls *)

(** One call: the clock reading it saw and its two arguments. *)
Record Call := {
  at_time : Z;
  identity : string;
  tokens_requested : Z
}.

(** One step of the limiter: the state after the call, and the log of the
    admitted calls (most recent first). *)
Definition step (st : RateLimiter * list Call) (c : Call) : RateLimiter * list Call :=
  match check (at_time c) st.1 (identity c) (tokens_requested c) with
  | (self, Returned) => (self, c :: st.2)
  | (self, Raised _) => (self, st.2)
  end.

Definition run (self : RateLimiter) (calls : list Call) : RateLimiter * list Call :=
  foldl step (self, []) calls.

(** The admitted calls of an identity whose timestamp lies in the trailing
    window (t - 60, t]. *)
Definition in_window (ident : string) (t : Z) (c : Call) : bool :=
  bool_decide (identity c = ident) && (t - 60 <? at_time c) && (at_time c <=? t).

Definition accepted_in_window (ident : string) (t : Z) (log : list Call) : list Call :=
  List.filter (in_window ident t) log.

Definition tokens_in_window (ident : string) (t : Z) (log : list Call) : Z :=
  foldr (λ c acc, tokens_requested c + acc) 0 (accepted_in_window ident t log).

(** *** Window accounting

    A deque of (timestamp, weight) pairs, the entries later than [w], and
    the entries in the trailing window (t - 60, t]. *)
Definition later_than (w : Z) (d : list (Z * Z)) : list (Z * Z) :=
  filter (λ e, w < e.1) d.

Definition within (t : Z) (d : list (Z * Z)) : list (Z * Z) :=
  filter (λ e, t - 60 < e.1 ∧ e.1 ≤ t) d.

(** The admitted calls of an identity as weighted entries, a call with
    argument [tokens] weighing [weight tokens]. *)
Definition entries (weight : Z → Z) (ident : string) (log : list Call) : list (Z * Z) :=
  (λ c, (at_time c, weight (tokens_requested c))) <$>
    filter (λ c, identity c = ident) log.

(** The invariant of a trace whose last clock reading is [clk], for a
    view of the quota as a weighted deque and the ceiling that bounds it:
    weights are not negative, every admitted entry later than the oldest
    instant still in the window is in the deque, and no trailing window
    exceeds the ceiling. *)
Definition Inv (weight : Z → Z) (view : Quota → list (Z * Z))
    (limit : RateLimiter → Z) (clk : Z) (st : RateLimiter * list Call) : Prop :=
  (∀ ident, Forall (λ e, 0 ≤ e.2) (view (quota_of st.1 ident))) ∧
  (∀ ident, Forall (λ e, 0 ≤ e.2) (entries weight ident st.2)) ∧
  (∀ ident w, clk - 60 ≤ w →
     total_tokens (later_than w (entries weight ident st.2))
     ≤ total_tokens (later_than w (view (quota_of st.1 ident)))) ∧
  (0 < limit st.1 →
     ∀ ident t, total_tokens (within t (entries weight ident st.2)) ≤ limit st.1).

(** The invariant of the state alone, for any clock: weights are not
    negative and the deque of every identity weighs at most the ceiling. *)
Definition Bounded (view : Quota → list (Z * Z)) (limit : RateLimiter → Z)
    (self : RateLimiter) : Prop :=
  (∀ ident, Forall (λ e, 0 ≤ e.2) (view (quota_of self ident))) ∧
  (0 < limit self → ∀ ident, total_tokens (view (quota_of self ident)) ≤ limit self).

(** The shape of every reachable quota: the two deques carry the same
    timestamps, and a positive request ceiling bounds their length. *)
Definition well_shaped (self : RateLimiter) : Prop :=
  ∀ ident,
    reqs (quota_of self ident) = (tokens (quota_of self ident)).*1 ∧
    (0 < requests_per_minute self →
     Z.of_nat (length (reqs (quota_of self ident))) ≤ requests_per_minute self).

End RateLimit.

(** ** app/services/qr_retriever.py *)

Module Reducer.

(** The exceptions the body of [reduce] can raise. *)
Inductive PyError := TypeError | IndexError | RuntimeError.

Inductive Result (A : Type) :=
| Ok (a : A)
| Raise (e : PyError).
Arguments Ok {A} a.
Arguments Raise {A} e.

#[global] Instance Result_ret : MRet Result := λ A a, Ok a.

#[global] Instance Result_bind : MBind Result := λ A B k r,
  match r with
  | Ok a => k a
  | Raise e => Raise e
  end.

(** *** Tensors and lists *)

(** What [t.squeeze().tolist()] gives for a tensor [t] of shape (1, n):
    [squeeze()] removes every dimension of size 1, so for n = 1 the
    tensor becomes 0-dimensional and [tolist()] returns a bare number. *)
Inductive PyVal :=
| PyScalar (x : Z)
| PyList (l : list Z).

Definition squeeze_tolist (row : list Z) : PyVal :=
  match row with
  | [x] => PyScalar x
  | _ => PyList row
  end.

(** [len(v)]: a number has no length. *)
Definition py_len (v : PyVal) : Result nat :=
  match v with
  | PyScalar _ => Raise TypeError
  | PyList l => Ok (length l)
  end.

(** [l[:stop]] on a list. *)
Definition slice_to (l : list Z) (stop : Z) : list Z :=
  if stop <? 0 then take (Z.to_nat (Z.of_nat (length l) + stop)) l
  else take (Z.to_nat stop) l.

(** [l[start:]] on a list. *)
Definition slice_from (l : list Z) (start : Z) : list Z :=
  if start <? 0 then drop (Z.to_nat (Z.of_nat (length l) + start)) l
  else drop (Z.to_nat start) l.

(** [v[start:]]: a number is not subscriptable. *)
Definition py_slice_from (v : PyVal) (start : Z) : Result (list Z) :=
  match v with
  | PyScalar _ => Raise TypeError
  | PyList l => Ok (slice_from l start)
  end.

(** [t.squeeze()[indices].tolist()] for a tensor [t] of shape (1, n) and
    a list of positions: a 0-dimensional tensor cannot be indexed, and a
    position outside the tensor is an error. *)
Definition gather (row : list Z) (indices : list nat) : Result (list Z) :=
  match row with
  | [x] => Raise IndexError
  | _ =>
      match mapM (λ i, row !! i) indices with
      | Some l => Ok l
      | None => Raise IndexError
      end
  end.

(** *** Relevance scores *)

(** A score of the relevance tensor: a number or [-float("inf")]. *)
Inductive Score :=
| NegInf
| Fin (q : Q).

Definition score_leb (a b : Score) : bool :=
  match a, b with
  | NegInf, _ => true
  | Fin _, NegInf => false
  | Fin p, Fin q => Qle_bool p q
  end.

(** [relevance[:n] = -float("inf")]. *)
Definition mask_prefix (n : nat) (relevance : list Q) : list Score :=
  imap (λ i q, if (i <? n)%nat then NegInf else Fin q) relevance.

(** [torch.topk] returns the positions of the [k] largest scores, largest
    first.  Ties are resolved here in favour of the lower position, the
    order the specification fixes; the positions are found by a stable
    insertion sort of the (position, score) pairs by decreasing score. *)
Fixpoint insert_desc (x : nat * Score) (l : list (nat * Score)) : list (nat * Score) :=
  match l with
  | [] => [x]
  | y :: l' => if score_leb y.2 x.2 then x :: l else y :: insert_desc x l'
  end.

Definition sort_desc (l : list (nat * Score)) : list (nat * Score) :=
  foldr insert_desc [] l.

(** [torch.topk(relevance, k)]: [k] out of range is a [RuntimeError]. *)
Definition topk (relevance : list Score) (k : Z) : Result (list nat) :=
  if (k <? 0) || (Z.of_nat (length relevance) <? k) then Raise RuntimeError
  else Ok (take (Z.to_nat k)
             (sort_desc (zip (seq 0 (length relevance)) relevance)).*1).

(** [torch.sort(top_indices).values.tolist()]. *)
Definition sort_indices (indices : list nat) : list nat :=
  merge_sort le indices.

(** Lines 152-155: the positions kept on the oracle path. *)
Definition select_positions (top_k : Z) (relevance : list Score) : Result (list nat) :=
  top_indices ← topk relevance (Z.min top_k (Z.of_nat (length relevance))) ;
  Ok (sort_indices top_indices).

(** Lines 102 and 111-114: the tokens kept on the fallback path. *)
Definition fallback_select (top_k : Z) (context_ids : list Z) : list Z :=
  let half := Z.max (top_k / 2) 1 in
  if Z.of_nat (length context_ids) <=? top_k then context_ids
  else slice_to context_ids half ++ slice_from context_ids (- half).


Definition newline : string := String (Ascii.ascii_of_nat 10) EmptyString.

(** The separator of line 94. *)
Definition sep : string :=
  newline +:+ newline +:+ "### CONTEXT ###" +:+ newline +:+ newline.

Section WithModel.

(** The collaborators [_load_model] returns.  [tokenizer text] is the
    single row of [tokenizer(text, return_tensors="pt").input_ids];
    [decode] is [tokenizer.decode(_, skip_special_tokens=True)];
    [attentions ids layer head j] is the entry [layer[0, head, 0, j]]
    of [outputs.attentions[layer]] for the input [ids]; a layer or head
    index outside the tensor is not modelled. *)
Variable tokenizer : string → list Z.
Variable decode : list Z → string.
Variable retrieval_heads : list (Z * Z).
Variable attentions : list Z → Z → Z → nat → Q.

(** Lines 133-143: the averaged attention of the retrieval heads. *)
Definition relevance_of (input_ids : list Z) : list Q :=
  let seq_len := length input_ids in
  let summed :=
    foldl (λ relevance lh,
             zip_with Qplus relevance
               (attentions input_ids lh.1 lh.2 <$> seq 0 seq_len))
          (replicate seq_len 0%Q) retrieval_heads in
  (λ q, (q / inject_Z (Z.max (Z.of_nat (length retrieval_heads)) 1))%Q) <$> summed.

(** The start of the context: the lengths of the separately tokenized
    separator and query (lines 105-109 and 146-148). *)
Definition context_start (query : string) : Result nat :=
  sep_len ← py_len (squeeze_tolist (tokenizer sep)) ;
  query_len ← py_len (squeeze_tolist (tokenizer query)) ;
  Ok (query_len + sep_len)%nat.

(** [reduce]. *)
Definition reduce (settings : Config.Settings)
    (query context : string) (top_k : option Z) : Result (string * Z * Z) :=
  let top_k := default (Config.top_k settings) top_k in
  let full_text := query +:+ sep +:+ context in
  let input_ids := tokenizer full_text in
  let tokens_before := Z.of_nat (length input_ids) in
  match retrieval_heads with
  | [] =>
      start_idx ← context_start query ;
      context_ids ← py_slice_from (squeeze_tolist input_ids) (Z.of_nat start_idx) ;
      let selected := fallback_select top_k context_ids in
      Ok (decode selected, tokens_before, Z.of_nat (length selected))
  | _ :: _ =>
      let relevance := relevance_of input_ids in
      start_idx ← context_start query ;
      let relevance := mask_prefix start_idx relevance in
      sorted_indices ← select_positions top_k relevance ;
      selected_ids ← gather input_ids sorted_indices ;
      Ok (decode selected_ids, tokens_before, Z.of_nat (length selected_ids))
  end.

End WithModel.

(** *** A concrete tokenizer

    One token per character, no special tokens; [char_decode] is its
    inverse. *)
Definition char_tokenizer (s : string) : list Z :=
  (λ c, Z.of_nat (nat_of_ascii c)) <$> list_ascii_of_string s.

Definition char_decode (ids : list Z) : string :=
  string_of_list_ascii ((λ x, ascii_of_nat (Z.to_nat x)) <$> ids).

(** *** A tokenizer with a special token

    As the tokenizer of the default model does, [bos_tokenizer] puts a
    beginning-of-sequence token in front of the tokens of every text;
    [bos_decode] skips it, as [skip_special_tokens=True] asks. *)
Definition bos_token : Z := 256.

Definition bos_tokenizer (s : string) : list Z := bos_token :: char_tokenizer s.

Definition bos_decode (ids : list Z) : string :=
  char_decode (filter (λ x, x ≠ bos_token) ids).

(** Attention of one head for a query and separator of 21 tokens
    followed by a context whose tokens score 0.1, 0.9, 0.2, 0.5: the
    head looks at the query and separator more than at any context
    token. *)
Definition scenario_attentions : list Z → Z → Z → nat → Q :=
  λ _ _ _ j,
    if (j <? 21)%nat then 1%Q
    else nth (j - 21) [1 # 10; 9 # 10; 2 # 10; 5 # 10]%Q 0%Q.

End Reducer.

(** ** app/compression.py *)

Module Compression.

(** [compress]: [reduce] with the configured [top_k]. *)
Definition compress (tokenizer : string → list Z) (decode : list Z → string)
    (retrieval_heads : list (Z * Z)) (attentions : list Z → Z → Z → nat → Q)
    (settings : Config.Settings) (query context : string)
    : Reducer.Result (string * Z * Z) :=
  Reducer.reduce tokenizer decode retrieval_heads attentions settings query context None.

End Compression.

(** ** Python string methods

    Strings are sequences of characters below 256. *)

Module PyStr.

(** [c.isspace()] for a character below 256: tab to carriage return, the
    four separators 28 to 31, space, NEL and the no-break space. *)
Definition isspace (c : ascii) : bool :=
  let n := nat_of_ascii c in
  ((9 <=? n) && (n <=? 13) || (28 <=? n) && (n <=? 32) || (n =? 133) || (n =? 160))%nat.

(** [s.lstrip(chars)], for the characters that satisfy [P]. *)
Fixpoint lstrip_chars (P : ascii → bool) (s : string) : string :=
  match s with
  | EmptyString => EmptyString
  | String c s' => if P c then lstrip_chars P s' else s
  end.

(** [s.rstrip(chars)], for the characters that satisfy [P]. *)
Fixpoint rstrip_chars (P : ascii → bool) (s : string) : string :=
  match s with
  | EmptyString => EmptyString
  | String c s' =>
      match rstrip_chars P s' with
      | EmptyString => if P c then EmptyString else String c EmptyString
      | r => String c r
      end
  end.

(** [s.strip()]. *)
Definition strip (s : string) : string :=
  rstrip_chars isspace (lstrip_chars isspace s).

(** [s.split(sep)] for a separator of one character. *)
Fixpoint split (sep : ascii) (s : string) : list string :=
  match s with
  | EmptyString => [EmptyString]
  | String c s' =>
      if decide (c = sep) then EmptyString :: split sep s'
      else match split sep s' with
           | w :: ws => String c w :: ws
           | [] => [String c EmptyString]
           end
  end.

(** [sep.join(parts)]. *)
Fixpoint join (sep : string) (parts : list string) : string :=
  match parts with
  | [] => EmptyString
  | [x] => x
  | x :: rest => x +:+ sep +:+ join sep rest
  end.

(** [s.startswith(prefix)]. *)
Fixpoint startswith (prefix s : string) : bool :=
  match prefix, s with
  | EmptyString, _ => true
  | String a p, String b s' => bool_decide (a = b) && startswith p s'
  | String _ _, EmptyString => false
  end.

(** [s[n:]]. *)
Fixpoint drop_chars (n : nat) (s : string) : string :=
  match n, s with
  | O, _ => s
  | S n', String _ s' => drop_chars n' s'
  | S _, EmptyString => EmptyString
  end.

(** [len(s.split())]: the number of maximal runs of characters that are
    not whitespace. *)
Fixpoint count_words_go (in_word : bool) (s : string) : nat :=
  match s with
  | EmptyString => 0
  | String c s' =>
      if isspace c then count_words_go false s'
      else if in_word then count_words_go true s'
      else S (count_words_go true s')
  end.

Definition count_words (s : string) : nat := count_words_go false s.

(** [c in s] and [all(P(c) for c in s)]. *)
Fixpoint mem (c : ascii) (s : string) : bool :=
  match s with
  | EmptyString => false
  | String a s' => bool_decide (a = c) || mem c s'
  end.

Fixpoint all_chars (P : ascii → bool) (s : string) : bool :=
  match s with
  | EmptyString => true
  | String a s' => P a && all_chars P s'
  end.

End PyStr.

(** ** app/config.py, the other fields *)

Module ServiceConfig.

(** [Settings] with the fields the limiter and the reducer do not read. *)
Record Settings := {
  core : Config.Settings;
  api_keys : string;
  upstream_base : string;
  upstream_model : string;
  upstream_api_key : string;
  model_name : string;
  lora_id : string;
  database_url : string
}.

Definition default_settings : Settings :=
  {| core := Config.default_settings;
     api_keys := "dev-key";
     upstream_base := "https://api.openai.com";
     upstream_model := "gpt-3.5-turbo";
     upstream_api_key := "";
     model_name := "mistralai/Mistral-7B-v0.2";
     lora_id := "";
     database_url := "sqlite:///./memory.db" |}.

(** [Settings.parsed_api_keys]:
    [{k.strip() for k in self.api_keys.split(",") if k.strip()}]. *)
Definition parsed_api_keys (settings : Settings) : gset string :=
  list_to_set
    (filter (λ k, k ≠ EmptyString)
       (PyStr.strip <$> PyStr.split "," (api_keys settings))).

End ServiceConfig.

(** ** app/auth.py *)

Module Auth.

Definition HTTP_401_UNAUTHORIZED : Z := 401.

(** The exception of lines 51-55. *)
Definition MISSING_KEY : RateLimit.HTTPException :=
  {| RateLimit.status_code := HTTP_401_UNAUTHORIZED;
     RateLimit.detail := "Missing X-API-Key header";
     RateLimit.headers := [("WWW-Authenticate", "API key")] |}.

(** The exception of lines 58-62. *)
Definition INVALID_KEY : RateLimit.HTTPException :=
  {| RateLimit.status_code := HTTP_401_UNAUTHORIZED;
     RateLimit.detail := "Invalid API key";
     RateLimit.headers := [("WWW-Authenticate", "API key")] |}.

(** [get_current_identity]: the identity, or the exception raised.
    [x_api_key] is the header, [None] when the client sent none. *)
Definition get_current_identity (settings : ServiceConfig.Settings)
    (x_api_key : option string) : RateLimit.HTTPException + string :=
  let allowed_keys := ServiceConfig.parsed_api_keys settings in
  if decide (allowed_keys = ∅) then inr EmptyString
  else
    match x_api_key with
    | None => inl MISSING_KEY
    | Some EmptyString => inl MISSING_KEY
    | Some header =>
        let key := PyStr.strip header in
        if decide (key ∈ allowed_keys) then inr key else inl INVALID_KEY
    end.

End Auth.

(** ** app/memory.py

    The [messages] table is a list of rows; a database session that adds,
    selects or deletes and commits is a function on that list. *)

Module Memory.

(** A row of [Message]. *)
Record Message := {
  id : Z;
  session_id : string;
  role : string;
  content : string;
  tokens : Z
}.

(** The dict [get_messages] builds for a row: the values under "role",
    "content" and "tokens". *)
Record MessageDict := {
  dict_role : string;
  dict_content : string;
  dict_tokens : Z
}.

(** The key of an inserted row: an integer primary key takes one more
    than the largest key in the table, 1 in an empty table. *)
Definition next_id (db : list Message) : Z :=
  foldr Z.max 0 (id <$> db) + 1.

(** [add_message]. *)
Definition add_message (db : list Message) (session_id role content : string)
    (tokens : Z) : list Message :=
  db ++ [ {| id := next_id db; session_id := session_id; role := role;
             content := content; tokens := tokens |} ].

(** [order_by(Message.id)]. *)
Definition id_le (r1 r2 : Message) : Prop := id r1 ≤ id r2.

#[global] Instance id_le_dec : RelDecision id_le := λ r1 r2, decide (id r1 ≤ id r2).

(** [get_messages]. *)
Definition get_messages (db : list Message) (sid : string) : list MessageDict :=
  let rows := merge_sort id_le (filter (λ row, session_id row = sid) db) in
  (λ row, {| dict_role := role row; dict_content := content row;
             dict_tokens := tokens row |}) <$> rows.

(** [get_context]. *)
Definition get_context (db : list Message) (sid : string) : string :=
  PyStr.join Reducer.newline (dict_content <$> get_messages db sid).

(** [clear_session]. *)
Definition clear_session (db : list Message) (sid : string) : list Message :=
  filter (λ row, session_id row ≠ sid) db.

(** *** Sequences of operations on the table *)

Inductive Op :=
| Add (session_id role content : string) (tokens : Z)
| Clear (session_id : string).

Definition apply_op (db : list Message) (op : Op) : list Message :=
  match op with
  | Add sid role content tokens => add_message db sid role content tokens
  | Clear sid => clear_session db sid
  end.

(** The table after a sequence of operations on the empty table. *)
Definition run (ops : list Op) : list Message := foldl apply_op [] ops.

(** The conversation of a session as a plain list: an [Add] appends to
    it, a [Clear] empties it. *)
Definition history_step (sid : string) (acc : list MessageDict) (op : Op)
    : list MessageDict :=
  match op with
  | Add s role content tokens =>
      if decide (s = sid)
      then acc ++ [ {| dict_role := role; dict_content := content;
                       dict_tokens := tokens |} ]
      else acc
  | Clear s => if decide (s = sid) then [] else acc
  end.

Definition history (sid : string) (ops : list Op) : list MessageDict :=
  foldl (history_step sid) [] ops.

End Memory.

(** ** JSON values

    The values [json.loads] and [request.json()] produce, and the Python
    operations applied to them. *)

Module PyJson.

#[local] Set Warnings "-register-all".

(** A Python [float]: not a number, an infinity, or the finite value
    [mantissa * 2 ^ exponent]. *)
Inductive PyFloat :=
| FNan
| FInf (negative : bool)
| FFinite (mantissa exponent : Z).

(** The values [json.loads] builds, [resp.json()] and [request.json()]
    with it: [nan] and the infinities are among them, since [json.loads]
    reads [NaN], [Infinity] and [-Infinity]. *)
Inductive Json :=
| JNull
| JBool (b : bool)
| JNum (z : Z)
| JFloat (f : PyFloat)
| JStr (s : string)
| JList (l : list Json)
| JDict (d : gmap string Json).

(** [bool(v)]. *)
Definition truthy (v : Json) : bool :=
  match v with
  | JNull => false
  | JBool b => b
  | JNum z => negb (z =? 0)
  | JFloat (FFinite mantissa _) => negb (mantissa =? 0)
  | JFloat _ => true
  | JStr s => negb (bool_decide (s = EmptyString))
  | JList l => negb (bool_decide (l = []))
  | JDict d => negb (bool_decide (d = ∅))
  end.

(** [a or b]. *)
Definition py_or (a b : Json) : Json := if truthy a then a else b.

(** [v.get(key, default)]: [None] is the [AttributeError] of a value that
    is not a dict. *)
Definition get (v : Json) (key : string) (fallback : Json) : option Json :=
  match v with
  | JDict d => Some (default fallback (d !! key))
  | _ => None
  end.

(** Whether [json.dumps(v, allow_nan=False)] returns: it raises
    [ValueError] on a float that is not finite, anywhere in [v]. *)
Fixpoint allow_nan_false (v : Json) : bool :=
  match v with
  | JFloat (FFinite _ _) => true
  | JFloat _ => false
  | JList l => forallb allow_nan_false l
  | JDict d => map_fold (λ _ item rest, allow_nan_false item && rest) true d
  | _ => true
  end.

End PyJson.

(** ** app/upstream.py *)

Module Upstream.
Import PyJson.

(** What [client.post(url, headers=headers, json=payload)] sends. *)
Record Request := {
  url : string;
  headers : gmap string string;
  payload : gmap string Json
}.

(** What the response gives back: [resp.json()], [None] when the body is
    not JSON, and the lines of [resp.aiter_lines()]. *)
Record HttpResponse := {
  json : option Json;
  lines : list string
}.

(** What [call_llm] returns: it raises, or returns the parsed body, or
    returns a generator, given by the events it yields and whether it ends
    by raising. *)
Inductive CallResult :=
| CallRaised
| CallJson (body : Json)
| CallStream (events : list Json) (raised : bool).

(** Lines 54-67: the request [call_llm] composes.  [authorization] is
    [None] or the caller's header; [extra] is [None] or a dict. *)
Definition request_of (settings : ServiceConfig.Settings)
    (messages model stream : Json) (authorization : option string)
    (extra : option (gmap string Json)) : Request :=
  let url :=
    PyStr.rstrip_chars (λ c, bool_decide (c = "/"%char))
      (ServiceConfig.upstream_base settings) +:+ "/v1/chat/completions" in
  let api_key :=
    match authorization with
    | Some a => if decide (a = EmptyString)
                then ServiceConfig.upstream_api_key settings else a
    | None => ServiceConfig.upstream_api_key settings
    end in
  let headers : gmap string string :=
    if decide (api_key = EmptyString) then ∅ else {[ "Authorization" := api_key ]} in
  let payload : gmap string Json :=
    {[ "model" := py_or model (JStr (ServiceConfig.upstream_model settings));
       "messages" := messages;
       "stream" := stream ]} in
  let payload :=
    match extra with
    | Some e => if decide (e = ∅) then payload else e ∪ payload
    | None => payload
    end in
  {| url := url; headers := headers; payload := payload |}.

(** Lines 76-80: the text a line hands to [json.loads], if any. *)
Definition data_of_line (line : string) : option string :=
  if decide (line = EmptyString) then None
  else if decide (PyStr.strip line = "data: [DONE]") then None
  else if PyStr.startswith "data:" line
       then Some (PyStr.strip (PyStr.drop_chars 5 line))
       else None.

(** The lines of a stream in the provider's format: for each event the
    line [data: ] followed by its JSON text and a blank line, then the
    line [data: [DONE]]. *)
Definition sse_frames (texts : list string) : list string :=
  concat ((λ text, ["data: " +:+ text; EmptyString]) <$> texts) ++ ["data: [DONE]"].

(** [event_generator]: the events yielded, and whether [json.loads]
    raised, which ends the generator. *)
Fixpoint event_generator (loads : string → option Json) (lines : list string)
    : list Json * bool :=
  match lines with
  | [] => ([], false)
  | line :: rest =>
      match data_of_line line with
      | None => event_generator loads rest
      | Some data =>
          match loads data with
          | None => ([], true)
          | Some event =>
              let '(events, raised) := event_generator loads rest in
              (event :: events, raised)
          end
      end
  end.

(** [call_llm].  [post] is the HTTP exchange followed by
    [raise_for_status()], [None] when either raises; [loads] is
    [json.loads], [None] when it raises. *)
Definition call_llm (settings : ServiceConfig.Settings)
    (post : Request → option HttpResponse) (loads : string → option Json)
    (messages model stream : Json) (authorization : option string)
    (extra : option (gmap string Json)) : CallResult :=
  match post (request_of settings messages model stream authorization extra) with
  | None => CallRaised
  | Some resp =>
      if truthy stream then
        let '(events, raised) := event_generator loads (lines resp) in
        CallStream events raised
      else
        match json resp with
        | Some body => CallJson body
        | None => CallRaised
        end
  end.

End Upstream.

(** ** app/main.py *)

Module Main.
Import PyJson.

(** The exceptions the handler raises itself. *)
Definition http_error (status : Z) (detail : string) : RateLimit.HTTPException :=
  {| RateLimit.status_code := status; RateLimit.detail := detail;
     RateLimit.headers := [] |}.

Definition INVALID_JSON := http_error 400 "Invalid JSON payload".
Definition MESSAGES_NOT_LIST := http_error 422 "'messages' must be a list".
Definition NO_MESSAGES := http_error 422 "No messages provided".
Definition LAST_NOT_USER := http_error 422 "Last message must have role 'user'".

(** The integers written to [x-tokens-before], [x-tokens-after] and
    [x-tokens-saved]. *)
Record TokenHeaders := {
  x_tokens_before : Z;
  x_tokens_after : Z;
  x_tokens_saved : Z
}.

(** How a call of the handler ends: an [HTTPException], another exception
    (a 500 for the client), the [JSONResponse] it returns, given by its
    content, or the [StreamingResponse] it returns, given by the chunks it
    sends and whether the stream breaks off.  Both responses are built at
    lines 116 and 121 from the content alone: they do not carry the
    [x-tokens] headers, which lines 111-113 write on another object. *)
Inductive Outcome :=
| HttpError (e : RateLimit.HTTPException)
| Unhandled
| JsonResponse (content : Json)
| StreamResponse (chunks : list string) (aborted : bool).

(** The state the handler leaves, the request it forwarded upstream if it
    got that far, the headers it wrote on the injected [response]
    parameter if it got that far, and how it ended. *)
Record Handled := {
  limiter : RateLimit.RateLimiter;
  db : list Memory.Message;
  forwarded : option Upstream.Request;
  response_headers : option TokenHeaders;
  outcome : Outcome
}.

(** [x_session_id or identity or "anonymous"]. *)
Definition session_of (x_session_id : option string) (identity : string) : string :=
  match x_session_id with
  | Some sid => if decide (sid = EmptyString)
                then (if decide (identity = EmptyString) then "anonymous" else identity)
                else sid
  | None => if decide (identity = EmptyString) then "anonymous" else identity
  end.

(** Lines 91-92: one upstream message per message of the payload; [None]
    is the [AttributeError] of a message that is not a dict. *)
Definition upstream_message (m : Json) : option Json :=
  role ← get m "role" (JStr "user");
  content ← get m "content" (JStr EmptyString);
  Some (JDict {[ "role" := role; "content" := content ]}).

(** Lines 104-109: the reply to store, if any; the outer [None] is an
    exception raised on the way. *)
Definition reply_of (result : Json) : option (option (string * Z)) :=
  choices ← get result "choices" (JList []);
  if truthy choices then
    match choices with
    | JList (first :: _) =>
        message ← get first "message" (JDict ∅);
        content ← get message "content" (JStr EmptyString);
        match content with
        | JStr reply_content =>
            Some (Some (reply_content, Z.of_nat (PyStr.count_words reply_content)))
        | _ => None
        end
    | _ => None
    end
  else Some None.

(** The chunk [event_stream] sends for an event. *)
Definition sse_chunk (dumps : Json → string) (event : Json) : string :=
  "data: " +:+ dumps event +:+ Reducer.newline +:+ Reducer.newline.

Section WithCollaborators.

(** The reducer's model, the HTTP exchange, [json.loads] and
    [json.dumps]. *)
Variable tokenizer : string → list Z.
Variable decode : list Z → string.
Variable retrieval_heads : list (Z * Z).
Variable attentions : list Z → Z → Z → nat → Q.
Variable post : Upstream.Request → option Upstream.HttpResponse.
Variable loads : string → option Json.
Variable dumps : Json → string.
Variable settings : ServiceConfig.Settings.

(** [chat_completions], from the state of the limiter and of the table,
    at clock reading [now].  [body] is the dict [request.json()] returns,
    [None] when it raises; a body that is JSON but not an object is not
    modelled.  [JSONResponse(status_code=200, content=result)] renders its
    content when it is built, with [json.dumps(_, allow_nan=False)], and
    so raises on a float that is not finite; strings hold characters
    below 256, so that the encoding of the rendered text does not
    raise. *)
Definition chat_completions (now : Z) (limiter : RateLimit.RateLimiter)
    (db : list Memory.Message) (body : option (gmap string Json))
    (identity : string) (authorization x_session_id : option string) : Handled :=
  let stop o :=
    {| limiter := limiter; db := db; forwarded := None; response_headers := None;
       outcome := o |} in
  match body with
  | None => stop (HttpError INVALID_JSON)
  | Some payload =>
      match payload !! "messages" with
      | Some (JList messages) =>
          let model :=
            default (JStr (ServiceConfig.upstream_model settings)) (payload !! "model") in
          let stream := default (JBool false) (payload !! "stream") in
          let session_id := session_of x_session_id identity in
          let context := Memory.get_context db session_id in
          match last messages with
          | None => stop (HttpError NO_MESSAGES)
          | Some current_msg =>
              match get current_msg "role" JNull with
              | None => stop Unhandled
              | Some role =>
                  if negb (match role with
                           | JStr r => bool_decide (r = "user")
                           | _ => false
                           end)
                  then stop (HttpError LAST_NOT_USER)
                  else
                  match get current_msg "content" (JStr EmptyString) with
                  | Some (JStr query) =>
                      match Compression.compress tokenizer decode retrieval_heads
                              attentions (ServiceConfig.core settings) query context with
                      | Reducer.Raise _ => stop Unhandled
                      | Reducer.Ok (condensed_context, tokens_before, tokens_after) =>
                          match RateLimit.check now limiter identity tokens_before with
                          | (limiter, RateLimit.Raised e) =>
                              {| limiter := limiter; db := db; forwarded := None;
                                 response_headers := None; outcome := HttpError e |}
                          | (limiter, RateLimit.Returned) =>
                              match mapM upstream_message messages with
                              | None =>
                                  {| limiter := limiter; db := db; forwarded := None;
                                     response_headers := None; outcome := Unhandled |}
                              | Some forwarded_messages =>
                                  let upstream_messages :=
                                    JList
                                      ((if decide (condensed_context = EmptyString) then []
                                        else [JDict {[ "role" := JStr "system";
                                                       "content" := JStr condensed_context ]}])
                                       ++ forwarded_messages) in
                                  let request :=
                                    Upstream.request_of settings upstream_messages model
                                      stream authorization None in
                                  let stats :=
                                    {| x_tokens_before := tokens_before;
                                       x_tokens_after := tokens_after;
                                       x_tokens_saved := tokens_before - tokens_after |} in
                                  let respond db result :=
                                    {| limiter := limiter; db := db;
                                       forwarded := Some request;
                                       response_headers := Some stats;
                                       outcome := if allow_nan_false result
                                                  then JsonResponse result
                                                  else Unhandled |} in
                                  match Upstream.call_llm settings post loads upstream_messages
                                          model stream authorization None with
                                  | Upstream.CallRaised =>
                                      {| limiter := limiter; db := db;
                                         forwarded := Some request;
                                         response_headers := None;
                                         outcome := Unhandled |}
                                  | Upstream.CallJson result =>
                                      let db :=
                                        Memory.add_message db session_id "user" query
                                          tokens_after in
                                      match result with
                                      | JDict _ =>
                                          match reply_of result with
                                          | None =>
                                              {| limiter := limiter; db := db;
                                                 forwarded := Some request;
                                                 response_headers := None;
                                                 outcome := Unhandled |}
                                          | Some None => respond db result
                                          | Some (Some (reply_content, reply_tokens)) =>
                                              respond
                                                (Memory.add_message db session_id
                                                   "assistant" reply_content reply_tokens)
                                                result
                                          end
                                      | _ => respond db result
                                      end
                                  | Upstream.CallStream events raised =>
                                      {| limiter := limiter;
                                         db := Memory.add_message db session_id "user" query
                                                 tokens_after;
                                         forwarded := Some request;
                                         response_headers := Some stats;
                                         outcome := StreamResponse (sse_chunk dumps <$> events)
                                                      raised |}
                                  end
                              end
                          end
                      end
                  | Some _ => stop Unhandled
                  | None => stop Unhandled
                  end
              end
          end
      | _ => stop (HttpError MESSAGES_NOT_LIST)
      end
  end.

End WithCollaborators.

(** *** A provider for examples

    A provider that answers every request with one completion, or with
    one streamed event when asked to stream, a parser that knows that
    event, and a request body holding one user message. *)

Definition scenario_completion : Json :=
  JDict {[ "choices" :=
             JList [JDict {[ "message" :=
                               JDict {[ "role" := JStr "assistant";
                                        "content" := JStr "hello there" ]} ]}] ]}.

(** A completion that reports a usage that is not a number. *)
Definition scenario_nan_completion : Json :=
  JDict {[ "choices" :=
             JList [JDict {[ "message" :=
                               JDict {[ "role" := JStr "assistant";
                                        "content" := JStr "hello there" ]} ]}];
           "usage" := JFloat FNan ]}.

Definition scenario_nan_post : Upstream.Request → option Upstream.HttpResponse :=
  λ _, Some {| Upstream.json := Some scenario_nan_completion; Upstream.lines := [] |}.

Definition scenario_event : Json := JDict {[ "delta" := JStr "hello" ]}.

Definition scenario_post : Upstream.Request → option Upstream.HttpResponse :=
  λ _, Some {| Upstream.json := Some scenario_completion;
               Upstream.lines := Upstream.sse_frames ["{delta}"] |}.

Definition scenario_loads : string → option Json :=
  λ text, if decide (text = "{delta}") then Some scenario_event else None.

Definition scenario_dumps : Json → string := λ _, "{delta}".

Definition scenario_body (text : string) (stream : bool) : gmap string Json :=
  {[ "messages" := JList [JDict {[ "role" := JStr "user"; "content" := JStr text ]}];
     "stream" := JBool stream ]}.

End Main.

(** * Properties of the rate limiter *)

Module RateLimitProofs.
Import RateLimit.

(** Linear arithmetic over the boolean tests of [check]. *)
Ltac bool_lia :=
  repeat match goal with
    | H : _ && _ = true |- _ => apply andb_true_iff in H as [? ?]
    | H : _ && _ = false |- _ => apply andb_false_iff in H as [?|?]
    | H : (_ <? _) = true |- _ => apply Z.ltb_lt in H
    | H : (_ <? _) = false |- _ => apply Z.ltb_ge in H
    | H : (_ <=? _) = true |- _ => apply Z.leb_le in H
    | H : (_ <=? _) = false |- _ => apply Z.leb_gt in H
    end;
  lia.

(** [check] in one piece: purge, then reject without recording, or
    record. *)
Lemma check_eq now self ident tokens_used :
  check now self ident tokens_used =
    let q := purge (now - 60) (quota_of self ident) in
    if (0 <? requests_per_minute self)
       && (requests_per_minute self <=? Z.of_nat (length (reqs q)))
    then (set_store self (<[ident := q]> (_store self)), Raised REQUEST_RATE_EXCEEDED)
    else if (0 <? tokens_per_minute self)
            && (tokens_per_minute self <? total_tokens (tokens q) + tokens_used)
    then (set_store self (<[ident := q]> (_store self)), Raised TOKEN_RATE_EXCEEDED)
    else (set_store self (<[ident := record q now tokens_used]> (_store self)), Returned).
Proof.
  unfold check, _get_quota, quota_of, purge, record, set_store.
  destruct (_store self !! ident) as [q|] eqn:Hq; simpl;
    repeat case_match; simplify_eq; rewrite ?insert_insert_eq; try done.
  all: by destruct self.
Qed.

Lemma quota_of_insert self ident q ident' :
  quota_of (set_store self (<[ident := q]> (_store self))) ident' =
    if decide (ident = ident') then q else quota_of self ident'.
Proof.
  unfold quota_of; simpl. rewrite lookup_insert.
  by case_decide.
Qed.

(** *** Weighted deques

    Both ceilings are instances of one argument about a deque of
    (timestamp, weight) pairs: the token deque as it is, the request
    deque with weight 1 for every entry. *)

Lemma total_tokens_cons e d : total_tokens (e :: d) = e.2 + total_tokens d.
Proof. done. Qed.

Lemma total_tokens_app d1 d2 :
  total_tokens (d1 ++ d2) = total_tokens d1 + total_tokens d2.
Proof. unfold total_tokens. induction d1 as [|e d1 IH]; simpl; lia. Qed.

Lemma total_tokens_filter_le (P : Z * Z → Prop) `{!∀ e, Decision (P e)} d :
  Forall (λ e, 0 ≤ e.2) d → total_tokens (filter P d) ≤ total_tokens d.
Proof.
  unfold total_tokens.
  induction 1 as [|e d He Hd IH]; [done|].
  rewrite filter_cons. case_decide; simpl; lia.
Qed.

Lemma Forall_filter_keep {A} (P Q : A → Prop) `{!∀ x, Decision (Q x)} l :
  Forall P l → Forall P (filter Q l).
Proof.
  rewrite !Forall_forall. intros Hall x [_ Hx]%list_elem_of_filter. auto.
Qed.

Lemma total_tokens_nonneg d :
  Forall (λ e, 0 ≤ e.2) d → 0 ≤ total_tokens d.
Proof. unfold total_tokens. induction 1; simpl; lia. Qed.

Lemma purge_tokens_suffix ws d : purge_tokens ws d `suffix_of` d.
Proof.
  induction d as [|e d IH]; simpl; [done|].
  case_match; [by apply suffix_cons_r | done].
Qed.

Lemma purge_reqs_suffix ws d : purge_reqs ws d `suffix_of` d.
Proof.
  induction d as [|e d IH]; simpl; [done|].
  case_match; [by apply suffix_cons_r | done].
Qed.

(** Purging at [ws] removes nothing later than [w] when [ws <= w]. *)
Lemma later_than_purge ws w d :
  ws ≤ w → later_than w (purge_tokens ws d) = later_than w d.
Proof.
  intros Hw. unfold later_than.
  induction d as [|e d IH]; simpl; [done|].
  destruct (Z.leb_spec e.1 ws); [|done].
  rewrite IH, filter_cons_False; [done | lia].
Qed.

Lemma within_later_than t d :
  within t d = within t (later_than (t - 60) d).
Proof.
  unfold within, later_than. rewrite list_filter_filter.
  apply list_filter_iff. intros e. lia.
Qed.

Lemma check_cases now self ident tokens_used self' o :
  check now self ident tokens_used = (self', o) →
  let q := purge (now - 60) (quota_of self ident) in
  (self' = set_store self (<[ident := q]> (_store self)) ∧ o ≠ Returned) ∨
  (self' = set_store self (<[ident := record q now tokens_used]> (_store self))
   ∧ o = Returned).
Proof.
  rewrite check_eq. simpl. repeat case_match; intros; simplify_eq; auto.
Qed.

Section Window.
Variable weight : Z → Z.
Variable view : Quota → list (Z * Z).
Variable limit : RateLimiter → Z.
Hypothesis view_empty : view empty_quota = [].
Hypothesis view_purge : ∀ ws q, view (purge ws q) = purge_tokens ws (view q).
Hypothesis view_record : ∀ q now tok,
  view (record q now tok) = view q ++ [(now, weight tok)].
Hypothesis limit_set_store : ∀ self m, limit (set_store self m) = limit self.
Hypothesis accepted_fits : ∀ now self ident tok self',
  check now self ident tok = (self', Returned) → 0 < limit self →
  total_tokens (view (purge (now - 60) (quota_of self ident))) + weight tok
  ≤ limit self.

Lemma entries_cons ident c log :
  entries weight ident (c :: log) =
    if decide (identity c = ident)
    then (at_time c, weight (tokens_requested c)) :: entries weight ident log
    else entries weight ident log.
Proof. unfold entries. rewrite filter_cons. by case_decide. Qed.

Lemma Inv_init self clk : _store self = ∅ → Inv weight view limit clk (self, []).
Proof.
  intros Hs. unfold Inv, quota_of; simpl. rewrite Hs.
  setoid_rewrite lookup_empty; simpl. rewrite view_empty.
  repeat split; intros; try done; cbn; lia.
Qed.

(** One call preserves the invariant when the clock did not go back
    and the call's weight is not negative. *)
Lemma Inv_step clk st c :
  Inv weight view limit clk st →
  clk ≤ at_time c →
  0 ≤ weight (tokens_requested c) →
  Inv weight view limit (at_time c) (step st c).
Proof.
  destruct st as [self log], c as [now id tok]; simpl.
  intros (Hview & Hlog & Hlater & Hwin) Hclk Hwt. simpl in *.
  unfold step; simpl.
  destruct (check now self id tok) as [self' o] eqn:Hcheck.
  destruct (check_cases _ _ _ _ _ _ Hcheck) as [[-> Ho]|[-> ->]]; simpl.
  - (* rejected: only the purge happened *)
    destruct o as [|e]; [done|]. unfold Inv; simpl.
    rewrite limit_set_store. repeat split; try done.
    + intros ident. rewrite quota_of_insert. case_decide; subst; [|done].
      rewrite view_purge.
      destruct (purge_tokens_suffix (now - 60) (view (quota_of self ident))) as [k Hk].
      specialize (Hview ident). rewrite Hk in Hview.
      by apply Forall_app in Hview as [_ ?].
    + intros ident w Hw. rewrite quota_of_insert. case_decide; subst.
      * rewrite view_purge, later_than_purge by done. apply Hlater. lia.
      * apply Hlater. lia.
  - (* admitted: purge, then record *)
    unfold Inv; simpl. rewrite limit_set_store.
    set (q := purge (now - 60) (quota_of self id)).
    assert (Hq : Forall (λ e, 0 ≤ e.2) (view q)).
    { unfold q. rewrite view_purge.
      destruct (purge_tokens_suffix (now - 60) (view (quota_of self id))) as [k Hk].
      specialize (Hview id). rewrite Hk in Hview.
      by apply Forall_app in Hview as [_ ?]. }
    repeat split.
    + intros ident. rewrite quota_of_insert. case_decide; subst; [|done].
      rewrite view_record. apply Forall_app. split; [done|].
      by apply Forall_singleton.
    + intros ident. rewrite entries_cons; simpl. case_decide; subst; [|done].
      by apply Forall_cons.
    + intros ident w Hw. rewrite quota_of_insert, entries_cons; simpl.
      case_decide; subst; [|apply Hlater; lia].
      rewrite view_record. unfold later_than at 2. rewrite filter_app.
      rewrite total_tokens_app. fold (later_than w (view q)).
      unfold q at 1. rewrite view_purge, later_than_purge by done.
      specialize (Hlater ident w ltac:(lia)).
      unfold later_than at 1. rewrite filter_cons, (filter_cons _ _ []), filter_nil.
      simpl. case_decide; unfold total_tokens in *; simpl in *; 
        fold (later_than w (entries weight ident log)); lia.
    + intros Hlim ident t. rewrite entries_cons; simpl.
      case_decide; subst; [|by apply Hwin].
      unfold within. rewrite filter_cons; simpl.
      case_decide as Hin; [|by apply Hwin].
      fold (within t (entries weight ident log)).
      pose proof (accepted_fits _ _ _ _ _ Hcheck Hlim) as Hfit.
      fold q in Hfit.
      assert (total_tokens (within t (entries weight ident log))
              ≤ total_tokens (view q)) as Hle.
      { rewrite within_later_than.
        etrans; [apply total_tokens_filter_le; apply Forall_filter_keep, Hlog|].
        etrans; [apply (Hlater ident (t - 60)); lia|].
        rewrite <- (later_than_purge (now - 60)) by lia.
        unfold q. rewrite view_purge.
        apply total_tokens_filter_le. by rewrite <- view_purge. }
      change (total_tokens ((now, weight tok) :: ?l))
        with (weight tok + total_tokens l).
      lia.
Qed.

(** A trace preserves the invariant when the clock never goes back. *)
Lemma Inv_foldl calls : ∀ clk st,
  Inv weight view limit clk st →
  Sorted Z.le (clk :: (at_time <$> calls)) →
  Forall (λ c, 0 ≤ weight (tokens_requested c)) calls →
  ∃ clk', Inv weight view limit clk' (foldl step st calls).
Proof.
  induction calls as [|c calls IH]; intros clk st HI Hs Hw; simpl.
  { by exists clk. }
  apply Sorted_inv in Hs as [Hs Hhd]. apply HdRel_inv in Hhd.
  apply Forall_cons in Hw as [Hc Hw].
  apply (IH (at_time c)); [by apply (Inv_step clk) | done | done].
Qed.

Lemma Inv_run self calls :
  _store self = ∅ →
  Sorted Z.le (at_time <$> calls) →
  Forall (λ c, 0 ≤ weight (tokens_requested c)) calls →
  ∃ clk', Inv weight view limit clk' (run self calls).
Proof.
  intros Hs Hsorted Hw. unfold run.
  destruct calls as [|c calls]; [exists 0; by apply Inv_init|].
  apply (Inv_foldl (c :: calls) (at_time c)); [by apply Inv_init | | done].
  constructor; [done|]. constructor. simpl. lia.
Qed.

Lemma purge_tokens_total ws d :
  Forall (λ e, 0 ≤ e.2) d →
  Forall (λ e, 0 ≤ e.2) (purge_tokens ws d) ∧
  total_tokens (purge_tokens ws d) ≤ total_tokens d.
Proof.
  intros Hd. destruct (purge_tokens_suffix ws d) as [k Hk].
  rewrite Hk in Hd at 1. apply Forall_app in Hd as [Hk0 Hp].
  split; [done|]. rewrite Hk at 2. rewrite total_tokens_app.
  pose proof (total_tokens_nonneg k Hk0). lia.
Qed.

(** One call preserves the state invariant, whatever the clock reads. *)
Lemma Bounded_step st c :
  Bounded view limit st.1 →
  0 ≤ weight (tokens_requested c) →
  Bounded view limit (step st c).1.
Proof.
  destruct st as [self log], c as [now id tok]; simpl.
  intros [Hview Hbound] Hwt. unfold step; simpl.
  destruct (check now self id tok) as [self' o] eqn:Hcheck.
  destruct (purge_tokens_total (now - 60) (view (quota_of self id)) (Hview id))
    as [Hpos Hle].
  destruct (check_cases _ _ _ _ _ _ Hcheck) as [[-> Ho]|[-> ->]].
  - destruct o as [|e]; [done|]. unfold Bounded; simpl.
    rewrite limit_set_store. split.
    + intros ident. rewrite quota_of_insert. case_decide; subst; [|done].
      by rewrite view_purge.
    + intros Hlim ident. rewrite quota_of_insert. case_decide; subst; [|by apply Hbound].
      rewrite view_purge. specialize (Hbound Hlim ident). lia.
  - unfold Bounded; simpl. rewrite limit_set_store. split.
    + intros ident. rewrite quota_of_insert. case_decide; subst; [|done].
      rewrite view_record, view_purge. apply Forall_app. split; [done|].
      by apply Forall_singleton.
    + intros Hlim ident. rewrite quota_of_insert. case_decide; subst; [|by apply Hbound].
      pose proof (accepted_fits _ _ _ _ _ Hcheck Hlim) as Hfit.
      rewrite view_record, total_tokens_app.
      unfold total_tokens at 2. simpl. lia.
Qed.

Lemma Bounded_run self calls :
  _store self = ∅ →
  Forall (λ c, 0 ≤ weight (tokens_requested c)) calls →
  Bounded view limit (run self calls).1.
Proof.
  intros Hs Hw. unfold run.
  assert (Hinit : Bounded view limit (self, @nil Call).1).
  { unfold Bounded, quota_of; simpl. rewrite Hs.
    setoid_rewrite lookup_empty; simpl. rewrite view_empty.
    split; intros; [done | cbn; lia]. }
  revert Hinit. generalize (self, @nil Call).
  induction Hw as [|c calls Hc Hw IH]; intros st Hst; simpl; [done|].
  apply IH. by apply Bounded_step.
Qed.

End Window.

(** The ceilings are never changed by [check]. *)
Lemma step_limits st c :
  requests_per_minute (step st c).1 = requests_per_minute st.1 ∧
  tokens_per_minute (step st c).1 = tokens_per_minute st.1.
Proof.
  unfold step.
  destruct (check (at_time c) st.1 (identity c) (tokens_requested c)) as [self' o] eqn:Hc.
  destruct (check_cases _ _ _ _ _ _ Hc) as [[-> _]|[-> _]]; by destruct o.
Qed.

Lemma foldl_step_limits calls : ∀ st,
  requests_per_minute (foldl step st calls).1 = requests_per_minute st.1 ∧
  tokens_per_minute (foldl step st calls).1 = tokens_per_minute st.1.
Proof.
  induction calls as [|c calls IH]; intros st; simpl; [done|].
  destruct (IH (step st c)) as [-> ->]. apply step_limits.
Qed.

(** The request deque as a weighted deque: every request weighs 1. *)
Lemma reqs_view_purge ws d :
  (λ t, (t, 1)) <$> purge_reqs ws d = purge_tokens ws ((λ t, (t, 1)) <$> d).
Proof.
  induction d as [|t d IH]; simpl; [done|]. by case_match.
Qed.

Lemma reqs_view_total (d : list Z) :
  total_tokens ((λ t, (t, 1)) <$> d) = Z.of_nat (length d).
Proof.
  induction d as [|t d IH]; [done|].
  rewrite fmap_cons, total_tokens_cons, IH, length_cons. simpl. lia.
Qed.

(** The window of the log, in the two forms. *)
Lemma accepted_in_window_entries weight ident t log :
  within t (entries weight ident log) =
    (λ c, (at_time c, weight (tokens_requested c))) <$> accepted_in_window ident t log.
Proof.
  unfold within, entries, accepted_in_window, in_window.
  induction log as [|c log IH]; [done|].
  cbn [List.filter]. rewrite filter_cons. case_decide as Hid.
  - rewrite bool_decide_eq_true_2 by done.
    rewrite fmap_cons, filter_cons. cbn [fst andb].
    destruct (Z.ltb_spec (t - 60) (at_time c)), (Z.leb_spec (at_time c) t);
      cbn [andb]; case_decide; try lia; rewrite ?fmap_cons, IH; done.
  - rewrite bool_decide_eq_false_2 by done. cbn [andb]. apply IH.
Qed.

Lemma length_accepted_in_window ident t log :
  Z.of_nat (length (accepted_in_window ident t log)) =
    total_tokens (within t (entries (λ _, 1) ident log)).
Proof.
  rewrite accepted_in_window_entries.
  induction (accepted_in_window ident t log) as [|c l IH]; [done|].
  rewrite fmap_cons, total_tokens_cons, <- IH, length_cons. simpl. lia.
Qed.

Lemma tokens_in_window_entries ident t log :
  tokens_in_window ident t log =
    total_tokens (within t (entries (λ x, x) ident log)).
Proof.
  rewrite accepted_in_window_entries. unfold tokens_in_window.
  induction (accepted_in_window ident t log) as [|c l IH];
    unfold total_tokens in *; simpl; [done | by rewrite IH].
Qed.

(** The request ceiling on every trailing window. *)
Lemma requests_Inv self calls :
  _store self = ∅ →
  Sorted Z.le (at_time <$> calls) →
  ∃ clk, Inv (λ _, 1) (λ q, (λ t, (t, 1)) <$> reqs q) requests_per_minute
           clk (run self calls).
Proof.
  intros Hs Hsorted. apply Inv_run; try done.
  - intros. apply reqs_view_purge.
  - intros. simpl. by rewrite fmap_app.
  - intros now s ident tok s' Hc Hlim. rewrite check_eq in Hc. simpl in Hc.
    rewrite reqs_view_total. simpl.
    repeat case_match; simplify_eq. bool_lia.
  - by apply Forall_true.
Qed.

(** The token ceiling on every trailing window. *)
Lemma tokens_Inv self calls :
  _store self = ∅ →
  Sorted Z.le (at_time <$> calls) →
  Forall (λ c, 0 ≤ tokens_requested c) calls →
  ∃ clk, Inv (λ x, x) tokens tokens_per_minute clk (run self calls).
Proof.
  intros Hs Hsorted Hpos. apply Inv_run; try done.
  intros now s ident tok s' Hc Hlim. rewrite check_eq in Hc. simpl in Hc.
  repeat case_match; simplify_eq. simpl. bool_lia.
Qed.

Lemma requests_Bounded self calls :
  _store self = ∅ →
  Bounded (λ q, (λ t, (t, 1)) <$> reqs q) requests_per_minute (run self calls).1.
Proof.
  intros Hs. apply (Bounded_run (λ _, 1)); try done.
  - intros. apply reqs_view_purge.
  - intros. simpl. by rewrite fmap_app.
  - intros now s ident tok s' Hc Hlim. rewrite check_eq in Hc. simpl in Hc.
    rewrite reqs_view_total. simpl.
    repeat case_match; simplify_eq. bool_lia.
  - by apply Forall_true.
Qed.

Lemma tokens_Bounded self calls :
  _store self = ∅ →
  Forall (λ c, 0 ≤ tokens_requested c) calls →
  Bounded tokens tokens_per_minute (run self calls).1.
Proof.
  intros Hs Hpos. apply (Bounded_run (λ x, x)); try done.
  intros now s ident tok s' Hc Hlim. rewrite check_eq in Hc. simpl in Hc.
  repeat case_match; simplify_eq. simpl. bool_lia.
Qed.

(** C1.  For every identity and every sequence of [check] calls, when
    [requests_per_minute] is positive: in the state reached, the
    identity's [requests] sequence (the admitted requests of the current
    window) has at most [requests_per_minute] entries; and, for a clock
    that does not go back, the number of admitted requests whose timestamps
    fall within a trailing 60-second window (t - 60, t] never exceeds
    [requests_per_minute], whatever the instant [t]. *)
Theorem request_window_bound settings rpm tpm calls ident :
  0 < rpm →
  Z.of_nat (length (reqs (quota_of (run (__init__ settings rpm tpm) calls).1 ident)))
  ≤ rpm ∧
  (Sorted Z.le (at_time <$> calls) →
   ∀ t, Z.of_nat (length (accepted_in_window ident t
                            (run (__init__ settings rpm tpm) calls).2)) ≤ rpm).
Proof.
  intros Hrpm.
  destruct (foldl_step_limits calls (__init__ settings rpm tpm, [])) as [Hr _].
  simpl in Hr. fold (run (__init__ settings rpm tpm) calls) in Hr.
  split.
  - destruct (requests_Bounded (__init__ settings rpm tpm) calls eq_refl) as [_ Hb].
    rewrite Hr in Hb. specialize (Hb Hrpm ident).
    by rewrite reqs_view_total in Hb.
  - intros Hsorted t.
    destruct (requests_Inv (__init__ settings rpm tpm) calls)
      as (clk & _ & _ & _ & Hwin); [done | done |].
    rewrite length_accepted_in_window.
    rewrite Hr in Hwin. by apply Hwin.
Qed.

(** C2.  For every identity and every sequence of [check] calls whose
    token counts are not negative, when the limiter's token ceiling is
    positive: in the state reached, the token counts of the identity's
    [token_events] sum to at most the ceiling; and, for a clock that does
    not go back, the sum of the token counts of the admitted requests whose
    timestamps fall within a trailing 60-second window (t - 60, t] never
    exceeds the ceiling, whatever the instant [t]. *)
Theorem token_window_bound settings rpm tpm calls ident :
  0 < tokens_per_minute (__init__ settings rpm tpm) →
  Forall (λ c, 0 ≤ tokens_requested c) calls →
  total_tokens (tokens (quota_of (run (__init__ settings rpm tpm) calls).1 ident))
  ≤ tokens_per_minute (__init__ settings rpm tpm) ∧
  (Sorted Z.le (at_time <$> calls) →
   ∀ t, tokens_in_window ident t (run (__init__ settings rpm tpm) calls).2
        ≤ tokens_per_minute (__init__ settings rpm tpm)).
Proof.
  intros Htpm Hpos.
  destruct (foldl_step_limits calls (__init__ settings rpm tpm, [])) as [_ Ht].
  fold (run (__init__ settings rpm tpm) calls) in Ht.
  split.
  - destruct (tokens_Bounded (__init__ settings rpm tpm) calls eq_refl Hpos) as [_ Hb].
    rewrite Ht in Hb. by apply Hb.
  - intros Hsorted t.
    destruct (tokens_Inv (__init__ settings rpm tpm) calls)
      as (clk & _ & _ & _ & Hwin); [done | done | done |].
    rewrite tokens_in_window_entries.
    rewrite Ht in Hwin. by apply Hwin.
Qed.

(** Scenario A, followed by a call after the window has moved on. *)
Lemma request_window_bound_witness :
  let calls := [ {| at_time := 0; identity := "id"; tokens_requested := 10 |};
                 {| at_time := 1; identity := "id"; tokens_requested := 20 |};
                 {| at_time := 2; identity := "id"; tokens_requested := 1 |};
                 {| at_time := 61; identity := "id"; tokens_requested := 5 |} ] in
  0 < 2 ∧ Sorted Z.le (at_time <$> calls) ∧
  Z.of_nat (length (reqs (quota_of (run (__init__ Config.default_settings 2 100) calls).1
                            "id"))) ≤ 2 ∧
  Z.of_nat (length (accepted_in_window "id" 61
                      (run (__init__ Config.default_settings 2 100) calls).2)) ≤ 2.
Proof.
  intros calls.
  assert (Hs : Sorted Z.le (at_time <$> calls)) by (repeat constructor; simpl; lia).
  destruct (request_window_bound Config.default_settings 2 100 calls "id")
    as [Hstate Hwin]; [lia|].
  split; [lia|]. split; [exact Hs|]. split; [exact Hstate|]. exact (Hwin Hs 61).
Defined.

(** Scenario B, followed by calls that fit the ceiling. *)
Lemma token_window_bound_witness :
  let calls := [ {| at_time := 0; identity := "id"; tokens_requested := 60 |};
                 {| at_time := 1; identity := "id"; tokens_requested := 50 |};
                 {| at_time := 30; identity := "id"; tokens_requested := 40 |};
                 {| at_time := 60; identity := "id"; tokens_requested := 60 |} ] in
  0 < tokens_per_minute (__init__ Config.default_settings 5 100) ∧
  Forall (λ c, 0 ≤ tokens_requested c) calls ∧
  Sorted Z.le (at_time <$> calls) ∧
  total_tokens (tokens (quota_of (run (__init__ Config.default_settings 5 100) calls).1
                          "id"))
  ≤ tokens_per_minute (__init__ Config.default_settings 5 100) ∧
  tokens_in_window "id" 60 (run (__init__ Config.default_settings 5 100) calls).2
  ≤ tokens_per_minute (__init__ Config.default_settings 5 100).
Proof.
  intros calls.
  assert (Hp : Forall (λ c, 0 ≤ tokens_requested c) calls)
    by (repeat constructor; simpl; lia).
  assert (Hs : Sorted Z.le (at_time <$> calls)) by (repeat constructor; simpl; lia).
  destruct (token_window_bound Config.default_settings 5 100 calls "id")
    as [Hstate Hwin]; [reflexivity | exact Hp |].
  split; [reflexivity|]. split; [exact Hp|]. split; [exact Hs|].
  split; [exact Hstate|]. exact (Hwin Hs 60).
Defined.

(** The two assumptions on the trace are needed for the windows of the
    history.  With a clock that goes back, three requests are admitted in
    the window (50, 110] under a ceiling of two. *)
Remark backward_clock_window :
  let calls := [ {| at_time := 100; identity := "id"; tokens_requested := 1 |};
                 {| at_time := 200; identity := "id"; tokens_requested := 1 |};
                 {| at_time := 110; identity := "id"; tokens_requested := 1 |};
                 {| at_time := 261; identity := "id"; tokens_requested := 1 |};
                 {| at_time := 105; identity := "id"; tokens_requested := 1 |} ] in
  length (accepted_in_window "id" 110
            (run (__init__ Config.default_settings 2 100) calls).2) = 3%nat.
Proof. vm_compute. reflexivity. Qed.

(** With a negative token count, an admitted request of 110 tokens is
    alone in the window (0, 60] under a ceiling of 10. *)
Remark negative_tokens_window :
  let calls := [ {| at_time := 0; identity := "id"; tokens_requested := -100 |};
                 {| at_time := 1; identity := "id"; tokens_requested := 110 |} ] in
  tokens_in_window "id" 60 (run (__init__ Config.default_settings 5 10) calls).2 = 110.
Proof. vm_compute. reflexivity. Qed.

(** *** What a rejected call does to the state *)

Lemma purge_tokens_fst ws d :
  (purge_tokens ws d).*1 = purge_reqs ws d.*1.
Proof.
  induction d as [|e d IH]; simpl; [done|]. by case_match.
Qed.

Lemma check_well_shaped now self ident tok :
  well_shaped self → well_shaped (check now self ident tok).1.
Proof.
  intros Hw other. destruct (Hw other) as [Heq Hlen].
  destruct (Hw ident) as [Heqi Hleni].
  pose proof (suffix_length _ _ (purge_reqs_suffix (now - 60) (reqs (quota_of self ident)))).
  rewrite check_eq. simpl.
  repeat case_match; simpl; rewrite quota_of_insert; case_decide; subst; simpl;
    try done; rewrite ?fmap_app, ?purge_tokens_fst, <- ?Heqi, ?length_app; simpl;
    (split; [done|]); intros; bool_lia.
Qed.

Lemma run_well_shaped self calls :
  _store self = ∅ → well_shaped (run self calls).1.
Proof.
  intros Hs. unfold run.
  assert (Hinit : well_shaped (self, @nil Call).1).
  { intros ident. unfold quota_of; simpl. rewrite Hs, lookup_empty. simpl.
    split; [done | lia]. }
  revert Hinit. generalize (self, @nil Call).
  induction calls as [|c calls IH]; intros st Hst; simpl; [done|].
  apply IH. unfold step.
  pose proof (check_well_shaped (at_time c) st.1 (identity c) (tokens_requested c) Hst).
  by destruct (check (at_time c) st.1 (identity c) (tokens_requested c)) as [s []].
Qed.

Lemma purge_reqs_same_length ws d :
  (length d ≤ length (purge_reqs ws d))%nat → purge_reqs ws d = d.
Proof.
  destruct d as [|t d]; simpl; [done|].
  case_match; [|done].
  pose proof (suffix_length _ _ (purge_reqs_suffix ws d)). lia.
Qed.

Lemma purge_tokens_same ws d :
  purge_reqs ws d.*1 = d.*1 → purge_tokens ws d = d.
Proof.
  destruct d as [|e d]; simpl; [done|].
  case_match; [|done].
  intros Heq. apply (f_equal length) in Heq.
  match type of Heq with
  | length (purge_reqs ws ?l) = _ =>
      pose proof (suffix_length _ _ (purge_reqs_suffix ws l)) as Hlen
  end.
  simpl in *. lia.
Qed.

(** C3, as the code has it.  A rejected [check] records nothing for the
    rejected request: the state after it is the state before it with the
    identity's quota purged of its expired front entries (an empty quota
    is created for an identity not seen before), so both sequences are
    suffixes of the prior ones and every other identity is untouched.  A
    REQUEST_RATE_EXCEEDED rejection, in a state reached from the initial
    one, leaves the state identical. *)
Theorem rejected_check_records_nothing settings rpm tpm calls now ident tok self' e :
  let self := (run (__init__ settings rpm tpm) calls).1 in
  check now self ident tok = (self', Raised e) →
  self' = set_store self
            (<[ident := purge (now - 60) (quota_of self ident)]> (_store self)) ∧
  reqs (quota_of self' ident) `suffix_of` reqs (quota_of self ident) ∧
  tokens (quota_of self' ident) `suffix_of` tokens (quota_of self ident) ∧
  (∀ other, other ≠ ident → _store self' !! other = _store self !! other) ∧
  (e = REQUEST_RATE_EXCEEDED → self' = self).
Proof.
  intros self Hc.
  destruct (check_cases _ _ _ _ _ _ Hc) as [[-> _]|[_ ?]]; [|done].
  split; [done|]. rewrite quota_of_insert, decide_True by done. simpl.
  split; [apply purge_reqs_suffix|]. split; [apply purge_tokens_suffix|].
  split; [intros other Hne; by rewrite lookup_insert_ne|].
  intros ->. rewrite check_eq in Hc. simpl in Hc.
  destruct (run_well_shaped (__init__ settings rpm tpm) calls eq_refl ident)
    as [Heq Hlen]. fold self in Heq, Hlen.
  repeat case_match; simplify_eq.
  assert (Hr : purge_reqs (now - 60) (reqs (quota_of self ident))
               = reqs (quota_of self ident)).
  { apply purge_reqs_same_length. bool_lia. }
  assert (Ht : purge_tokens (now - 60) (tokens (quota_of self ident))
               = tokens (quota_of self ident)).
  { apply purge_tokens_same. by rewrite <- Heq. }
  assert (Hp : purge (now - 60) (quota_of self ident) = quota_of self ident).
  { unfold purge. rewrite Hr, Ht. by destruct (quota_of self ident). }
  rewrite Hp.
  assert (Hin : _store self !! ident = Some (quota_of self ident)).
  { unfold quota_of in *. destruct (_store self !! ident) as [q|]; [done|].
    simpl in *. bool_lia. }
  rewrite insert_id by done. by destruct self.
Qed.

Lemma rejected_check_records_nothing_witness :
  let calls := [ {| at_time := 0; identity := "id"; tokens_requested := 60 |};
                 {| at_time := 10; identity := "id"; tokens_requested := 30 |} ] in
  let self := (run (__init__ Config.default_settings 5 100) calls).1 in
  let self' := set_store self (<[ "id" := {| reqs := [10]; tokens := [(10, 30)] |} ]>
                                 (_store self)) in
  check 65 self "id" 80 = (self', Raised TOKEN_RATE_EXCEEDED) ∧
  reqs (quota_of self' "id") `suffix_of` reqs (quota_of self "id").
Proof.
  intros calls self self'.
  assert (Hc : check 65 self "id" 80 = (self', Raised TOKEN_RATE_EXCEEDED))
    by (vm_compute; reflexivity).
  split; [exact Hc|].
  exact (proj1 (proj2 (rejected_check_records_nothing
                         Config.default_settings 5 100 calls 65 "id" 80 self'
                         TOKEN_RATE_EXCEEDED Hc))).
Defined.

(** C3 as stated fails: a call rejected for tokens has already purged
    the expired entries of both sequences, so the sequences and the store
    differ before and after the rejected call. *)
Lemma rejected_check_mutates :
  let calls := [ {| at_time := 0; identity := "id"; tokens_requested := 60 |};
                 {| at_time := 10; identity := "id"; tokens_requested := 30 |} ] in
  let self := (run (__init__ Config.default_settings 5 100) calls).1 in
  let result := check 65 self "id" 80 in
  result.2 = Raised TOKEN_RATE_EXCEEDED ∧
  quota_of self "id" = {| reqs := [0; 10]; tokens := [(0, 60); (10, 30)] |} ∧
  quota_of result.1 "id" = {| reqs := [10]; tokens := [(10, 30)] |} ∧
  _store result.1 ≠ _store self.
Proof.
  intros calls self result.
  split; [vm_compute; reflexivity|].
  split; [vm_compute; reflexivity|].
  split; [vm_compute; reflexivity|].
  intros Heq. apply (f_equal (λ m, reqs <$> m !! "id")) in Heq.
  vm_compute in Heq. discriminate.
Qed.

(** *** Ceilings that are not positive *)

Lemma exceptions_differ : REQUEST_RATE_EXCEEDED ≠ TOKEN_RATE_EXCEEDED.
Proof. discriminate. Qed.

(** C4, as the code has it.  [requests_per_minute <= 0] disables the
    request check.  The token check is disabled when the limiter's
    effective token ceiling is not positive; the constructor takes for it
    its argument when non-zero, else [settings.tokens_per_minute] when
    non-zero, else [settings.rate_limit_tpm], so a negative argument
    disables the check and a zero argument defers to the settings.  This
    holds for any store, identity, clock reading and token count. *)
Theorem nonpositive_ceiling_disables settings rpm tpm store now ident tok :
  let self := set_store (__init__ settings rpm tpm) store in
  tokens_per_minute self =
    py_or tpm (py_or (Config.tokens_per_minute settings)
                     (Config.rate_limit_tpm settings)) ∧
  (rpm ≤ 0 → (check now self ident tok).2 ≠ Raised REQUEST_RATE_EXCEEDED) ∧
  (tokens_per_minute self ≤ 0 →
   (check now self ident tok).2 ≠ Raised TOKEN_RATE_EXCEEDED) ∧
  (tpm < 0 → (check now self ident tok).2 ≠ Raised TOKEN_RATE_EXCEEDED).
Proof.
  intros self. split; [done|].
  assert (Htok : tokens_per_minute self ≤ 0 →
                 (check now self ident tok).2 ≠ Raised TOKEN_RATE_EXCEEDED).
  { intros Hle. simpl in Hle. rewrite check_eq. simpl.
    repeat case_match; simpl; try discriminate; bool_lia. }
  split; [|split; [done|]].
  - intros Hle. rewrite check_eq. simpl.
    repeat case_match; simpl; try discriminate; bool_lia.
  - intros Hneg. apply Htok. simpl. unfold py_or.
    destruct (Z.eqb_spec tpm 0); lia.
Qed.

Lemma nonpositive_ceiling_disables_witness :
  let self := set_store (__init__ Config.default_settings 0 (-1)) ∅ in
  (0 ≤ 0 → (check 0 self "id" 1000000).2 ≠ Raised REQUEST_RATE_EXCEEDED) ∧
  (-1 < 0 → (check 0 self "id" 1000000).2 ≠ Raised TOKEN_RATE_EXCEEDED) ∧
  (check 0 self "id" 1000000).2 = Returned.
Proof.
  pose proof (nonpositive_ceiling_disables Config.default_settings 0 (-1) ∅
                0 "id" 1000000) as (_ & Hreq & _ & Htok).
  split; [exact Hreq|]. split; [exact Htok|].
  vm_compute. reflexivity.
Defined.

(** C4 as stated fails: a token ceiling configured as zero is replaced by
    the settings' ceiling (20000 by default), and calls are rejected
    against it. *)
Lemma zero_token_ceiling_still_rejects :
  tokens_per_minute (__init__ Config.default_settings 60 0) = 20000 ∧
  (check 0 (__init__ Config.default_settings 60 0) "id" 20001).2
    = Raised TOKEN_RATE_EXCEEDED ∧
  let settings := {| Config.top_k := 64; Config.requests_per_minute := 60;
                     Config.tokens_per_minute := 0;
                     Config.rate_limit_tpm := 20000 |} in
  (check 0 (get_rate_limiter settings) "id" 20001).2 = Raised TOKEN_RATE_EXCEEDED.
Proof. repeat split; vm_compute; reflexivity. Qed.

End RateLimitProofs.

(** * Properties of the context reducer *)

Module ReducerProofs.
Import Reducer.

Lemma bind_Ok {A B} (a : A) (k : A → Result B) : (Ok a ≫= k) = k a.
Proof. done. Qed.

(** *** Slices *)

Lemma slice_from_nat (l : list Z) (n : nat) : slice_from l (Z.of_nat n) = drop n l.
Proof.
  unfold slice_from. destruct (Z.ltb_spec (Z.of_nat n) 0); [lia|].
  by rewrite Nat2Z.id.
Qed.

(** The fallback selection in terms of [take] and [drop]: [half] tokens
    from each end. *)
Lemma fallback_select_eq top_k (context_ids : list Z) :
  fallback_select top_k context_ids =
    if Z.of_nat (length context_ids) <=? top_k then context_ids
    else take (Z.to_nat (Z.max (top_k / 2) 1)) context_ids
         ++ drop (length context_ids - Z.to_nat (Z.max (top_k / 2) 1)) context_ids.
Proof.
  unfold fallback_select, slice_to, slice_from.
  destruct (Z.leb_spec (Z.of_nat (length context_ids)) top_k); [done|].
  destruct (Z.ltb_spec (Z.max (top_k / 2) 1) 0); [lia|].
  destruct (Z.ltb_spec (- Z.max (top_k / 2) 1) 0); [|lia].
  do 2 f_equal. lia.
Qed.

Lemma half_bounds top_k :
  (1 ≤ Z.to_nat (Z.max (top_k / 2) 1))%nat ∧
  (2 ≤ top_k → 2 * Z.of_nat (Z.to_nat (Z.max (top_k / 2) 1)) ≤ top_k) ∧
  (top_k ≤ 1 → Z.to_nat (Z.max (top_k / 2) 1) = 1%nat).
Proof.
  split; [lia|]. split; intros Hk.
  - assert (1 ≤ top_k / 2) by (apply Z.div_le_lower_bound; lia).
    pose proof (Z.mul_div_le top_k 2 ltac:(lia)). lia.
  - assert (top_k / 2 ≤ 0).
    { assert (top_k / 2 < 1); [|lia].
      apply Z.div_lt_upper_bound; lia. }
    lia.
Qed.

(** The number of tokens the fallback keeps. *)
Lemma length_fallback_select top_k (context_ids : list Z) :
  length (fallback_select top_k context_ids) =
    if Z.of_nat (length context_ids) <=? top_k then length context_ids
    else (2 * (Z.to_nat (Z.max (top_k / 2) 1) `min` length context_ids))%nat.
Proof.
  rewrite fallback_select_eq.
  destruct (Z.leb_spec (Z.of_nat (length context_ids)) top_k); [done|].
  rewrite length_app, length_take, length_drop. lia.
Qed.

(** *** The selection of the oracle path *)

Lemma insert_desc_Permutation x l : insert_desc x l ≡ₚ x :: l.
Proof.
  induction l as [|y l IH]; simpl; [done|].
  case_match; [done|]. rewrite IH. apply Permutation_swap.
Qed.

Lemma sort_desc_Permutation l : sort_desc l ≡ₚ l.
Proof.
  unfold sort_desc. induction l as [|x l IH]; simpl; [done|].
  by rewrite insert_desc_Permutation, IH.
Qed.

(** The positions ranked by [topk] are a permutation of all positions. *)
Lemma ranked_positions_Permutation (relevance : list Score) :
  (sort_desc (zip (seq 0 (length relevance)) relevance)).*1
  ≡ₚ seq 0 (length relevance).
Proof.
  rewrite sort_desc_Permutation, fst_zip; [done|].
  by rewrite length_seq.
Qed.

Lemma topk_Ok relevance k top_indices :
  topk relevance k = Ok top_indices →
  0 ≤ k ≤ Z.of_nat (length relevance) ∧
  length top_indices = Z.to_nat k ∧
  NoDup top_indices ∧
  Forall (λ i, (i < length relevance)%nat) top_indices.
Proof.
  unfold topk. case_match eqn:Hk; [done|]. intros [= <-].
  apply orb_false_iff in Hk as [Hk1%Z.ltb_ge Hk2%Z.ltb_ge].
  pose proof (ranked_positions_Permutation relevance) as Hperm.
  set (ranked := (sort_desc (zip (seq 0 (length relevance)) relevance)).*1) in *.
  assert (Hlen : length ranked = length relevance).
  { by rewrite Hperm, length_seq. }
  split; [lia|]. split; [rewrite length_take; lia|]. split.
  - apply (sublist_NoDup _ ranked); [|apply sublist_take].
    rewrite Hperm. apply NoDup_seq.
  - apply Forall_take. rewrite Hperm. apply Forall_forall.
    intros i Hi%elem_of_seq. lia.
Qed.

(** The positions selected on the oracle path: as many as
    [min(top_k, length)], strictly increasing, all inside the sequence. *)
Lemma select_positions_Ok top_k relevance positions :
  select_positions top_k relevance = Ok positions →
  0 ≤ top_k ∧
  Z.of_nat (length positions) = Z.min top_k (Z.of_nat (length relevance)) ∧
  StronglySorted lt positions ∧
  Forall (λ i, (i < length relevance)%nat) positions.
Proof.
  unfold select_positions.
  destruct (topk relevance _) as [top_indices|e] eqn:Htop; [|done].
  cbn. intros [= <-].
  apply topk_Ok in Htop as (Hk & Hlen & Hnodup & Hrange).
  unfold sort_indices.
  pose proof (merge_sort_Permutation le top_indices) as Hperm.
  split; [lia|]. split; [rewrite Hperm; lia|]. split.
  - assert (Hs : StronglySorted le (merge_sort le top_indices))
      by (apply StronglySorted_merge_sort; apply _).
    assert (Hn : NoDup (merge_sort le top_indices)) by by rewrite Hperm.
    revert Hs Hn. generalize (merge_sort le top_indices).
    induction 1 as [|i l Hs IH Hi]; intros Hn; constructor.
    + apply IH. by apply NoDup_cons in Hn as [_ ?].
    + apply NoDup_cons in Hn as [Hnotin _].
      rewrite Forall_forall in *. intros j Hj.
      specialize (Hi j Hj). assert (i ≠ j) by (by intros ->). lia.
  - by rewrite Hperm.
Qed.

(** *** Positions and subsequences *)

(** Tokens read at strictly increasing positions form a subsequence. *)
Lemma positions_sublist (l : list Z) positions : ∀ selected n,
  StronglySorted lt positions →
  Forall (λ i, (n ≤ i)%nat) positions →
  Forall2 (λ i x, l !! i = Some x) positions selected →
  selected `sublist_of` drop n l.
Proof.
  induction positions as [|i positions IH]; intros selected n Hs Hn Hsel.
  { apply Forall2_nil_inv_l in Hsel as ->. apply sublist_nil_l. }
  apply Forall2_cons_inv_l in Hsel as (x & selected' & Hx & Hsel & ->).
  apply StronglySorted_inv in Hs as [Hs Hi].
  apply Forall_cons in Hn as [Hni _].
  assert (Hd : drop n l = take (i - n) (drop n l) ++ x :: drop (S i) l).
  { rewrite <- (take_drop (i - n) (drop n l)) at 1. f_equal.
    rewrite drop_drop. replace (n + (i - n))%nat with i by lia.
    by apply drop_S. }
  rewrite Hd. apply sublist_inserts_l. constructor.
  apply IH; [done | | done].
  eapply Forall_impl; [exact Hi|]. simpl. lia.
Qed.

(** A subsequence is read at strictly increasing positions. *)
Lemma sublist_positions (selected l : list Z) :
  selected `sublist_of` l →
  ∃ positions, StronglySorted lt positions ∧
               Forall2 (λ i x, l !! i = Some x) positions selected.
Proof.
  induction 1 as [|x l1 l2 _ (ps & Hs & Hsel)|x l1 l2 _ (ps & Hs & Hsel)].
  - exists []. split; constructor.
  - exists (0%nat :: (S <$> ps)). split.
    + constructor.
      * clear Hsel. induction Hs as [|i ps Hs IH Hi]; simpl; constructor; [done|].
        rewrite Forall_fmap. eapply Forall_impl; [exact Hi|]. simpl. lia.
      * rewrite Forall_fmap. apply Forall_true. simpl. lia.
    + constructor; [done|]. by apply Forall2_fmap_l.
  - exists (S <$> ps). split.
    + clear Hsel. induction Hs as [|i ps Hs IH Hi]; simpl; constructor; [done|].
      rewrite Forall_fmap. eapply Forall_impl; [exact Hi|]. simpl. lia.
    + by apply Forall2_fmap_l.
Qed.

Lemma StronglySorted_lt_le (positions : list nat) :
  StronglySorted lt positions → Sorted le positions.
Proof.
  induction 1 as [|i ps Hs IH Hi]; constructor; [done|].
  destruct ps as [|j ps]; constructor.
  apply Forall_cons in Hi as [? _]. lia.
Qed.

(** The fallback keeps a subsequence of the context, except for a
    context of one token and a [top_k] that is not positive, where the
    token is kept twice. *)
Lemma fallback_select_sublist top_k (context_ids : list Z) :
  fallback_select top_k context_ids `sublist_of` context_ids ∨
  (top_k ≤ 0 ∧ ∃ x, context_ids = [x] ∧ fallback_select top_k context_ids = [x; x]).
Proof.
  rewrite fallback_select_eq.
  destruct (Z.leb_spec (Z.of_nat (length context_ids)) top_k) as [|Hlt]; [by left|].
  destruct (half_bounds top_k) as (Hh1 & Hh2 & Hh3).
  set (h := Z.to_nat (Z.max (top_k / 2) 1)) in *.
  set (n := length context_ids) in *.
  destruct (decide (2 * h ≤ n)%nat) as [Hfit|Hover].
  - left. rewrite <- (take_drop h context_ids) at 3.
    apply sublist_app; [done|].
    replace (n - h)%nat with (h + (n - 2 * h))%nat by lia.
    rewrite <- drop_drop. apply sublist_drop.
  - assert (top_k ≤ 1) as Hk by lia. specialize (Hh3 Hk).
    assert (h = 1%nat) as Hh by done. clearbody h. subst h.
    destruct context_ids as [|x [|y rest]]; simpl in *.
    + left. done.
    + right. split; [lia|]. by exists x.
    + unfold n in *. simpl in *. lia.
Qed.

Lemma fallback_select_sublist_pos top_k (context_ids : list Z) :
  0 < top_k → fallback_select top_k context_ids `sublist_of` context_ids.
Proof.
  intros Hk. destruct (fallback_select_sublist top_k context_ids) as [|[? _]]; [done|lia].
Qed.

(** *** Selecting at least as many positions as there are *)

Lemma Sorted_le_seq j n : Sorted le (seq j n).
Proof.
  revert j. induction n as [|n IH]; intros j; simpl; constructor; [done|].
  destruct n; simpl; constructor. lia.
Qed.

(** When [top_k] is at least the length of the sequence, every position
    is selected, whatever the scores. *)
Lemma select_positions_all top_k relevance :
  Z.of_nat (length relevance) ≤ top_k →
  select_positions top_k relevance = Ok (seq 0 (length relevance)).
Proof.
  intros Hk. unfold select_positions, topk.
  rewrite Z.min_r by done.
  destruct (Z.ltb_spec (Z.of_nat (length relevance)) 0); [lia|].
  rewrite Z.ltb_irrefl. cbn. f_equal. unfold sort_indices.
  pose proof (ranked_positions_Permutation relevance) as Hperm.
  rewrite take_ge.
  2:{ rewrite Hperm, length_seq. lia. }
  apply (Sorted_unique le).
  - apply Sorted_merge_sort. apply _.
  - apply Sorted_le_seq.
  - by rewrite merge_sort_Permutation.
Qed.

Lemma gather_all (row : list Z) :
  length row ≠ 1%nat → gather row (seq 0 (length row)) = Ok row.
Proof.
  intros Hone. unfold gather.
  assert (Hm : mapM (λ i, row !! i) (seq 0 (length row)) = Some row).
  { apply mapM_Some_2, Forall2_same_length_lookup_2; [by rewrite length_seq|].
    intros i j x Hj Hx. apply lookup_seq in Hj as [-> _]. done. }
  rewrite Hm. by destruct row as [|x [|y row]].
Qed.

(** *** What [reduce] returns *)

Lemma gather_Ok (row : list Z) indices selected :
  gather row indices = Ok selected →
  length row ≠ 1%nat ∧
  Forall2 (λ i x, row !! i = Some x) indices selected.
Proof.
  unfold gather. intros Hg. split.
  - by destruct row as [|x [|y row]].
  - assert (Hm : mapM (λ i, row !! i) indices = Some selected).
    { destruct row as [|x [|y row]]; [|done|];
        by destruct (mapM _ indices); simplify_eq. }
    by apply mapM_Some_1.
Qed.

Lemma py_slice_from_Ok (row : list Z) (start : nat) l :
  py_slice_from (squeeze_tolist row) (Z.of_nat start) = Ok l →
  length row ≠ 1%nat ∧ l = drop start row.
Proof.
  destruct row as [|x [|y row]]; simpl; intros [= <-];
    by rewrite slice_from_nat.
Qed.

Lemma py_len_Ok (row : list Z) n :
  py_len (squeeze_tolist row) = Ok n → length row ≠ 1%nat ∧ n = length row.
Proof. destruct row as [|x [|y row]]; simpl; by intros [= <-]. Qed.

Section WithModel.
Variable tokenizer : string → list Z.
Variable decode : list Z → string.
Variable attentions : list Z → Z → Z → nat → Q.

Lemma length_relevance_of heads ids :
  length (relevance_of heads attentions ids) = length ids.
Proof.
  unfold relevance_of. rewrite length_fmap.
  assert (Hgen : ∀ acc, length acc = length ids →
    length (foldl (λ relevance lh,
              zip_with Qplus relevance
                (attentions ids lh.1 lh.2 <$> seq 0 (length ids))) acc heads)
    = length ids).
  { induction heads as [|lh heads IH]; intros acc Hacc; simpl; [done|].
    apply IH. rewrite length_zip_with, length_fmap, length_seq. lia. }
  apply Hgen. by rewrite length_replicate.
Qed.

Lemma context_start_Ok query start_idx :
  context_start tokenizer query = Ok start_idx →
  length (tokenizer sep) ≠ 1%nat ∧ length (tokenizer query) ≠ 1%nat ∧
  start_idx = (length (tokenizer query) + length (tokenizer sep))%nat.
Proof.
  unfold context_start.
  destruct (py_len (squeeze_tolist (tokenizer sep))) as [sl|] eqn:Hs; [|done].
  destruct (py_len (squeeze_tolist (tokenizer query))) as [ql|] eqn:Hq; [|done].
  cbn. intros [= <-].
  apply py_len_Ok in Hs as [? ->]. apply py_len_Ok in Hq as [? ->]. done.
Qed.

(** The fallback path: no retrieval heads. *)
Lemma reduce_fallback_Ok settings query context top_k r :
  reduce tokenizer decode [] attentions settings query context top_k = Ok r →
  let input_ids := tokenizer (query +:+ sep +:+ context) in
  ∃ start_idx,
    context_start tokenizer query = Ok start_idx ∧
    length input_ids ≠ 1%nat ∧
    let selected :=
      fallback_select (default (Config.top_k settings) top_k)
        (drop start_idx input_ids) in
    r = (decode selected, Z.of_nat (length input_ids), Z.of_nat (length selected)).
Proof.
  unfold reduce.
  destruct (context_start tokenizer query) as [start_idx|] eqn:Hs; [|done].
  cbn.
  destruct (py_slice_from _ _) as [context_ids|] eqn:Hc; [|done].
  cbn. intros [= <-].
  apply py_slice_from_Ok in Hc as [Hlen ->].
  by exists start_idx.
Qed.

(** The oracle path: at least one retrieval head. *)
Lemma reduce_oracle_Ok settings head heads query context top_k r :
  reduce tokenizer decode (head :: heads) attentions settings query context top_k
    = Ok r →
  let input_ids := tokenizer (query +:+ sep +:+ context) in
  ∃ start_idx positions selected,
    context_start tokenizer query = Ok start_idx ∧
    select_positions (default (Config.top_k settings) top_k)
      (mask_prefix start_idx (relevance_of (head :: heads) attentions input_ids))
      = Ok positions ∧
    gather input_ids positions = Ok selected ∧
    r = (decode selected, Z.of_nat (length input_ids), Z.of_nat (length selected)).
Proof.
  unfold reduce.
  destruct (context_start tokenizer query) as [start_idx|] eqn:Hs; [|done].
  cbn.
  destruct (select_positions _ _) as [positions|] eqn:Hp; [|done].
  cbn.
  destruct (gather _ _) as [selected|] eqn:Hg; [|done].
  cbn. intros [= <-].
  by exists start_idx, positions, selected.
Qed.

(** C5, as the code has it.  For a positive [top_k], [tokens_after] is
    at most [top_k] on the oracle path, and on the fallback path when
    [top_k >= 2]; the fallback keeps at least one token from each end,
    so for [top_k = 1] the bound is 2. *)
Theorem tokens_after_bound heads settings query context top_k
    condensed tokens_before tokens_after :
  0 < default (Config.top_k settings) top_k →
  reduce tokenizer decode heads attentions settings query context top_k
    = Ok (condensed, tokens_before, tokens_after) →
  tokens_after ≤ Z.max (default (Config.top_k settings) top_k) 2 ∧
  (heads ≠ [] ∨ 2 ≤ default (Config.top_k settings) top_k →
   tokens_after ≤ default (Config.top_k settings) top_k).
Proof.
  intros Hk Hr. set (k := default (Config.top_k settings) top_k) in *.
  destruct heads as [|head heads].
  - apply reduce_fallback_Ok in Hr as (start_idx & _ & _ & Hr).
    cbv zeta in Hr. fold k in Hr. injection Hr as _ _ ->.
    rewrite length_fallback_select.
    destruct (half_bounds k) as (Hh1 & Hh2 & Hh3).
    destruct (Z.leb_spec (Z.of_nat (length (drop start_idx
                (tokenizer (query +:+ sep +:+ context))))) k).
    + split; [lia|]. intros _. lia.
    + split; [|intros [?|?]; [done|lia]].
      destruct (decide (2 ≤ k)); [lia|]. rewrite Hh3 by lia. lia.
  - apply reduce_oracle_Ok in Hr as (start_idx & positions & selected & _ & Hp & Hg & Hr).
    injection Hr as _ _ ->. fold k in Hp.
    apply select_positions_Ok in Hp as (_ & Hlen & _ & _).
    apply gather_Ok in Hg as [_ Hsel%Forall2_length].
    rewrite <- Hsel. split; [lia|]. intros _. lia.
Qed.


(** C8.  On both paths the selected tokens are the tokens of the input
    sequence at positions listed in non-decreasing order, so they appear
    in their original relative order; for a positive [top_k] the
    positions are strictly increasing and the selection is a subsequence
    of the input sequence. *)
Theorem selection_preserves_order heads settings query context top_k
    condensed tokens_before tokens_after :
  reduce tokenizer decode heads attentions settings query context top_k
    = Ok (condensed, tokens_before, tokens_after) →
  let input_ids := tokenizer (query +:+ sep +:+ context) in
  ∃ positions selected,
    condensed = decode selected ∧
    tokens_after = Z.of_nat (length selected) ∧
    Forall2 (λ i x, input_ids !! i = Some x) positions selected ∧
    Sorted le positions ∧
    (0 < default (Config.top_k settings) top_k →
     StronglySorted lt positions ∧ selected `sublist_of` input_ids).
Proof.
  intros Hr input_ids. set (k := default (Config.top_k settings) top_k) in *.
  destruct heads as [|head heads].
  - apply reduce_fallback_Ok in Hr as (start_idx & _ & _ & Hr).
    cbv zeta in Hr. fold k input_ids in Hr. injection Hr as -> _ ->.
    destruct (fallback_select_sublist k (drop start_idx input_ids))
      as [Hsub|(Hk & x & Hctx & Hsel)].
    + assert (Hsub' : fallback_select k (drop start_idx input_ids)
                      `sublist_of` input_ids).
      { etrans; [exact Hsub | apply sublist_drop]. }
      destruct (sublist_positions _ _ Hsub') as (positions & Hs & Hpos).
      exists positions, (fallback_select k (drop start_idx input_ids)).
      repeat split; try done. by apply StronglySorted_lt_le.
    + exists [start_idx; start_idx], [x; x]. rewrite Hsel.
      assert (Hx : input_ids !! start_idx = Some x).
      { rewrite <- (Nat.add_0_r start_idx), <- lookup_drop. by rewrite Hctx. }
      repeat split; try done; try lia.
      * by repeat constructor.
      * repeat constructor.
  - apply reduce_oracle_Ok in Hr as (start_idx & positions & selected & _ & Hp & Hg & Hr).
    injection Hr as -> _ ->. fold k input_ids in Hp, Hg.
    apply select_positions_Ok in Hp as (_ & _ & Hs & _).
    apply gather_Ok in Hg as [_ Hsel].
    exists positions, selected.
    repeat split; try done; [by apply StronglySorted_lt_le|].
    rewrite <- (drop_0 input_ids).
    apply (positions_sublist _ positions); [done | | done].
    apply Forall_true. simpl. lia.
Qed.

Lemma reduce_after_le_before heads settings query context top_k
    condensed tokens_before tokens_after :
  reduce tokenizer decode heads attentions settings query context top_k
    = Ok (condensed, tokens_before, tokens_after) →
  tokens_after ≤ tokens_before.
Proof.
  intros Hr. set (k := default (Config.top_k settings) top_k) in *.
  destruct heads as [|head heads].
  - apply reduce_fallback_Ok in Hr as (start_idx & _ & Hone & Hr).
    cbv zeta in Hr, Hone. fold k in Hr. injection Hr as _ -> ->.
    rewrite length_fallback_select.
    destruct (half_bounds k) as (Hh1 & Hh2 & Hh3).
    pose proof (length_drop (tokenizer (query +:+ sep +:+ context)) start_idx) as Hd.
    destruct (Z.leb_spec (Z.of_nat (length (drop start_idx
                (tokenizer (query +:+ sep +:+ context))))) k); [lia|].
    destruct (decide (2 ≤ k)); [lia|]. rewrite Hh3 by lia. lia.
  - apply reduce_oracle_Ok in Hr as (start_idx & positions & selected & _ & Hp & Hg & Hr).
    injection Hr as _ -> ->. fold k in Hp.
    apply select_positions_Ok in Hp as (_ & Hlen & _ & _).
    apply gather_Ok in Hg as [_ Hsel%Forall2_length].
    unfold mask_prefix in Hlen.
    rewrite length_imap, length_relevance_of in Hlen. lia.
Qed.

(** C10.  On both paths, and for [compress], which is [reduce] with
    the configured [top_k], [tokens_after <= tokens_before]: the saving
    [tokens_before - tokens_after] reported to the caller is never
    negative. *)
Theorem tokens_after_le_before heads settings query context top_k
    condensed tokens_before tokens_after :
  reduce tokenizer decode heads attentions settings query context top_k
    = Ok (condensed, tokens_before, tokens_after) →
  tokens_after ≤ tokens_before ∧ 0 ≤ tokens_before - tokens_after.
Proof.
  intros Hr. apply reduce_after_le_before in Hr. lia.
Qed.

Corollary compress_saving_nonneg heads settings query context
    condensed tokens_before tokens_after :
  Compression.compress tokenizer decode heads attentions settings query context
    = Ok (condensed, tokens_before, tokens_after) →
  0 ≤ tokens_before - tokens_after.
Proof.
  unfold Compression.compress. intros Hr.
  apply reduce_after_le_before in Hr. lia.
Qed.

(** On the oracle path, a [top_k] that is at least the length of the
    whole sequence selects every token: the query and the separator
    come back with the context. *)
Lemma reduce_selects_everything head heads settings query context top_k start_idx :
  let input_ids := tokenizer (query +:+ sep +:+ context) in
  context_start tokenizer query = Ok start_idx →
  length input_ids ≠ 1%nat →
  Z.of_nat (length input_ids) ≤ default (Config.top_k settings) top_k →
  select_positions (default (Config.top_k settings) top_k)
    (mask_prefix start_idx (relevance_of (head :: heads) attentions input_ids))
    = Ok (seq 0 (length input_ids)) ∧
  reduce tokenizer decode (head :: heads) attentions settings query context top_k
    = Ok (decode input_ids, Z.of_nat (length input_ids), Z.of_nat (length input_ids)).
Proof.
  intros input_ids Hs Hone Hk.
  assert (Hlen : length (mask_prefix start_idx
            (relevance_of (head :: heads) attentions input_ids)) = length input_ids).
  { unfold mask_prefix. by rewrite length_imap, length_relevance_of. }
  assert (Hsel : select_positions (default (Config.top_k settings) top_k)
            (mask_prefix start_idx (relevance_of (head :: heads) attentions input_ids))
          = Ok (seq 0 (length input_ids))).
  { rewrite <- Hlen. apply select_positions_all. by rewrite Hlen. }
  split; [done|].
  unfold reduce. fold input_ids.
  rewrite Hs, bind_Ok, Hsel, bind_Ok, gather_all by done.
  by rewrite bind_Ok.
Qed.

(** A query of exactly one token makes [reduce] raise on both paths:
    [squeeze()] turns its one-token row into a number, and
    [len(number)] is a [TypeError]. *)
Lemma reduce_one_token_query heads settings query context top_k :
  length (tokenizer query) = 1%nat →
  reduce tokenizer decode heads attentions settings query context top_k
    = Raise TypeError.
Proof.
  intros Hq.
  assert (Hs : context_start tokenizer query = Raise TypeError).
  { unfold context_start.
    destruct (py_len (squeeze_tolist (tokenizer sep))) as [n|[]] eqn:Hsep; cbn;
      try done.
    - by destruct (tokenizer query) as [|x [|y l]].
    - by destruct (tokenizer sep) as [|x [|y l]].
    - by destruct (tokenizer sep) as [|x [|y l]]. }
  unfold reduce. rewrite Hs. by destruct heads.
Qed.

(** What holds of C9: with a tokenizer that tokenizes the three parts
    independently and whose [decode] inverts it on the context, and
    when none of the tokenized query, separator and full text is a
    single token, a context of at most [top_k] tokens comes back
    unchanged on the fallback path. *)
Lemma short_context_round_trip settings query context top_k :
  tokenizer (query +:+ sep +:+ context)
    = tokenizer query ++ tokenizer sep ++ tokenizer context →
  decode (tokenizer context) = context →
  length (tokenizer query) ≠ 1%nat →
  length (tokenizer sep) ≠ 1%nat →
  length (tokenizer (query +:+ sep +:+ context)) ≠ 1%nat →
  Z.of_nat (length (tokenizer context)) ≤ default (Config.top_k settings) top_k →
  reduce tokenizer decode [] attentions settings query context top_k
    = Ok (context,
          Z.of_nat (length (tokenizer (query +:+ sep +:+ context))),
          Z.of_nat (length (tokenizer (query +:+ sep +:+ context)))
          - Z.of_nat (length (tokenizer query) + length (tokenizer sep))).
Proof.
  intros Hcomp Hdec Hq Hsep Hfull Hk.
  assert (Hs : context_start tokenizer query
               = Ok (length (tokenizer query) + length (tokenizer sep))%nat).
  { unfold context_start.
    destruct (tokenizer sep) as [|x [|y l]], (tokenizer query) as [|x' [|y' l']];
      done. }
  assert (Hc : py_slice_from (squeeze_tolist (tokenizer (query +:+ sep +:+ context)))
                 (Z.of_nat (length (tokenizer query) + length (tokenizer sep)))
               = Ok (tokenizer context)).
  { destruct (tokenizer (query +:+ sep +:+ context)) as [|x [|y l]] eqn:Hids;
      [| done |]; simpl; rewrite slice_from_nat; f_equal;
      rewrite Hcomp, app_assoc, <- length_app; by rewrite drop_app_length. }
  unfold reduce. rewrite Hs. cbn. rewrite Hc. cbn.
  unfold fallback_select.
  destruct (Z.leb_spec (Z.of_nat (length (tokenizer context)))
              (default (Config.top_k settings) top_k)); [|lia].
  rewrite Hdec. do 2 f_equal.
  rewrite Hcomp, !length_app. lia.
Qed.

End WithModel.

(** *** The theorems at concrete inputs *)

(** Scenario C: no retrieval heads, [top_k = 4], a context of 10 tokens. *)
Lemma tokens_after_bound_witness :
  0 < default (Config.top_k Config.default_settings) (Some 4) ∧
  reduce char_tokenizer char_decode [] scenario_attentions
    Config.default_settings "hi" "abcdefghij" (Some 4) = Ok ("abij", 31, 4) ∧
  4 ≤ Z.max 4 2 ∧ ([] ≠ @nil (Z * Z) ∨ 2 ≤ 4 → 4 ≤ 4).
Proof.
  assert (Hr : reduce char_tokenizer char_decode [] scenario_attentions
                 Config.default_settings "hi" "abcdefghij" (Some 4)
               = Ok ("abij", 31, 4)) by (vm_compute; reflexivity).
  split; [reflexivity|]. split; [exact Hr|].
  exact (tokens_after_bound char_tokenizer char_decode scenario_attentions []
           Config.default_settings "hi" "abcdefghij" (Some 4) "abij" 31 4
           eq_refl Hr).
Defined.

(** C5 as stated fails on the fallback path for [top_k = 1]: one token
    is kept from each end, two in all. *)
Lemma top_k_one_keeps_two_tokens :
  reduce char_tokenizer char_decode [] scenario_attentions
    Config.default_settings "hi" "abc" (Some 1) = Ok ("ac", 24, 2) ∧
  ¬ (2 ≤ 1).
Proof. split; [vm_compute; reflexivity | lia]. Qed.


(** With a tokenizer that puts a special token in front of every text the
    slice starts one token after the first token of the context: the
    context "abc" comes back as "bc", and the context "a" as the empty
    text. *)
Remark fallback_slice_starts_late :
  reduce bos_tokenizer bos_decode [] scenario_attentions
    Config.default_settings "hi" "abc" None = Ok ("bc", 25, 2) ∧
  reduce bos_tokenizer bos_decode [] scenario_attentions
    Config.default_settings "hi" "a" None = Ok (EmptyString, 23, 0) ∧
  bos_tokenizer ("hi" +:+ sep +:+ "abc")
    ≠ bos_tokenizer "hi" ++ bos_tokenizer sep ++ char_tokenizer "abc".
Proof.
  split; [vm_compute; reflexivity|]. split; [vm_compute; reflexivity|].
  vm_compute. discriminate.
Qed.


(** C7 fails on the code: with the default [top_k = 64] and a sequence
    of 24 tokens (a query of 2, the separator of 19, a context of 3),
    [min(top_k, seq_len)] is 24 and every position is selected, the 21
    masked positions of the query and the separator included, whatever
    the attention scores; the condensed text is the whole input. *)
Theorem short_context_selects_query_and_separator
    (attentions : list Z → Z → Z → nat → Q) :
  let input_ids := char_tokenizer ("hi" +:+ sep +:+ "abc") in
  context_start char_tokenizer "hi" = Ok 21%nat ∧
  select_positions 64
    (mask_prefix 21 (relevance_of [(0, 0)] attentions input_ids))
    = Ok (seq 0 24) ∧
  reduce char_tokenizer char_decode [(0, 0)] attentions
    Config.default_settings "hi" "abc" None
    = Ok ("hi" +:+ sep +:+ "abc", 24, 24).
Proof.
  intros input_ids.
  assert (Hs : context_start char_tokenizer "hi" = Ok 21%nat)
    by (vm_compute; reflexivity).
  split; [exact Hs|].
  destruct (reduce_selects_everything char_tokenizer char_decode attentions
              (0, 0) [] Config.default_settings "hi" "abc" None 21 Hs)
    as [Hsel Hr].
  - vm_compute. lia.
  - vm_compute. discriminate.
  - split; [exact Hsel | exact Hr].
Qed.

(** Scenario D on the oracle path: [top_k = 3] and context scores
    0.1, 0.9, 0.2, 0.5. *)
Lemma selection_preserves_order_witness :
  reduce char_tokenizer char_decode [(0, 0)] scenario_attentions
    Config.default_settings "hi" "abcd" (Some 3) = Ok ("bcd", 25, 3) ∧
  ∃ positions selected,
    "bcd" = char_decode selected ∧
    3 = Z.of_nat (length selected) ∧
    Forall2 (λ i x, char_tokenizer ("hi" +:+ sep +:+ "abcd") !! i = Some x)
      positions selected ∧
    Sorted le positions ∧
    (0 < default (Config.top_k Config.default_settings) (Some 3) →
     StronglySorted lt positions ∧
     selected `sublist_of` char_tokenizer ("hi" +:+ sep +:+ "abcd")).
Proof.
  assert (Hr : reduce char_tokenizer char_decode [(0, 0)] scenario_attentions
                 Config.default_settings "hi" "abcd" (Some 3)
               = Ok ("bcd", 25, 3)) by (vm_compute; reflexivity).
  split; [exact Hr|].
  exact (selection_preserves_order char_tokenizer char_decode scenario_attentions
           [(0, 0)] Config.default_settings "hi" "abcd" (Some 3) "bcd" 25 3 Hr).
Defined.

(** C9 fails on the code: with one token per character, the query "a"
    is one token, and [reduce] raises for the empty context. *)
Theorem one_token_query_raises (attentions : list Z → Z → Z → nat → Q) :
  length (char_tokenizer "a") = 1%nat ∧
  Z.of_nat (length (char_tokenizer "")) ≤ Config.top_k Config.default_settings ∧
  reduce char_tokenizer char_decode [] attentions
    Config.default_settings "a" "" None = Raise TypeError.
Proof.
  split; [reflexivity|]. split; [vm_compute; discriminate|].
  by apply reduce_one_token_query.
Qed.

(** The round trip of C9 where it holds: a query of two tokens. *)
Example short_context_round_trip_example :
  reduce char_tokenizer char_decode [] scenario_attentions
    Config.default_settings "hi" "abc" None = Ok ("abc", 24, 24 - 21).
Proof.
  apply (short_context_round_trip char_tokenizer char_decode scenario_attentions
           Config.default_settings "hi" "abc" None);
    vm_compute; (reflexivity || discriminate).
Qed.

Lemma tokens_after_le_before_witness :
  reduce char_tokenizer char_decode [(0, 0)] scenario_attentions
    Config.default_settings "hi" "abcd" (Some 3) = Ok ("bcd", 25, 3) ∧
  3 ≤ 25 ∧ 0 ≤ 25 - 3.
Proof.
  assert (Hr : reduce char_tokenizer char_decode [(0, 0)] scenario_attentions
                 Config.default_settings "hi" "abcd" (Some 3)
               = Ok ("bcd", 25, 3)) by (vm_compute; reflexivity).
  split; [exact Hr|].
  exact (tokens_after_le_before char_tokenizer char_decode scenario_attentions
           [(0, 0)] Config.default_settings "hi" "abcd" (Some 3) "bcd" 25 3 Hr).
Defined.

End ReducerProofs.

(** * Further properties of the rate limiter *)

Module RateLimitMore.
Import RateLimit RateLimitProofs.

Lemma purge_reqs_idem ws d : purge_reqs ws (purge_reqs ws d) = purge_reqs ws d.
Proof.
  induction d as [|t d IH]; simpl; [done|].
  destruct (Z.leb_spec t ws) as [|Hgt]; [done|].
  simpl. destruct (Z.leb_spec t ws); [lia | done].
Qed.

Lemma purge_tokens_idem ws d : purge_tokens ws (purge_tokens ws d) = purge_tokens ws d.
Proof.
  induction d as [|e d IH]; simpl; [done|].
  destruct (Z.leb_spec e.1 ws) as [|Hgt]; [done|].
  simpl. destruct (Z.leb_spec e.1 ws); [lia | done].
Qed.

Lemma purge_reqs_all ws d : Forall (λ t, t ≤ ws) d → purge_reqs ws d = [].
Proof.
  induction 1 as [|t d Ht Hd IH]; simpl; [done|].
  destruct (Z.leb_spec t ws); [done | lia].
Qed.

Lemma purge_tokens_all ws d : Forall (λ e, e.1 ≤ ws) d → purge_tokens ws d = [].
Proof.
  induction 1 as [|e d He Hd IH]; simpl; [done|].
  destruct (Z.leb_spec e.1 ws); [done | lia].
Qed.

(** Checks of two different identities commute: the state reached and the
    outcome of each call do not depend on the order of the two calls. *)
Theorem check_commute now1 now2 self a b ta tb :
  a ≠ b →
  (check now2 (check now1 self a ta).1 b tb).1
    = (check now1 (check now2 self b tb).1 a ta).1 ∧
  (check now1 (check now2 self b tb).1 a ta).2 = (check now1 self a ta).2 ∧
  (check now2 (check now1 self a ta).1 b tb).2 = (check now2 self b tb).2.
Proof.
  intros Hab.
  assert (Hone : ∀ now s i t j, i ≠ j →
            quota_of (check now s i t).1 j = quota_of s j ∧
            requests_per_minute (check now s i t).1 = requests_per_minute s ∧
            tokens_per_minute (check now s i t).1 = tokens_per_minute s).
  { intros now s i t j Hij.
    destruct (check now s i t) as [s' o] eqn:Hc.
    destruct (check_cases _ _ _ _ _ _ Hc) as [[-> _]|[-> _]]; simpl;
      by rewrite quota_of_insert, decide_False. }
  destruct (Hone now1 self a ta b Hab) as (Hq1 & Hr1 & Ht1).
  destruct (Hone now2 self b tb a (not_eq_sym Hab)) as (Hq2 & Hr2 & Ht2).
  assert (Hstore : ∀ now s i t, ∃ q,
            (check now s i t).1 = set_store s (<[i := q]> (_store s)) ∧
            ((check now s i t).2 ≠ Returned ∧ q = purge (now - 60) (quota_of s i) ∨
             (check now s i t).2 = Returned ∧
             q = record (purge (now - 60) (quota_of s i)) now t)).
  { intros now s i t. destruct (check now s i t) as [s' o] eqn:Hc.
    destruct (check_cases _ _ _ _ _ _ Hc) as [[-> ?]|[-> ->]]; eauto. }
  assert (Hout : ∀ now s s' i t,
            quota_of s' i = quota_of s i →
            requests_per_minute s' = requests_per_minute s →
            tokens_per_minute s' = tokens_per_minute s →
            (check now s' i t).2 = (check now s i t).2).
  { intros now s s' i t Hq Hr Ht. rewrite !check_eq. simpl.
    rewrite Hq, Hr, Ht. by repeat case_match. }
  pose proof (Hout now1 self _ a ta Hq2 Hr2 Ht2) as Ha.
  pose proof (Hout now2 self _ b tb Hq1 Hr1 Ht1) as Hb.
  split; [|done].
  destruct (Hstore now1 self a ta) as (qa & Ea & Ca).
  destruct (Hstore now2 self b tb) as (qb & Eb & Cb).
  destruct (Hstore now2 (check now1 self a ta).1 b tb) as (qb' & Eb' & Cb').
  destruct (Hstore now1 (check now2 self b tb).1 a ta) as (qa' & Ea' & Ca').
  rewrite Hq1, Hb in Cb'. rewrite Hq2, Ha in Ca'.
  assert (qa' = qa) as -> by (destruct Ca as [[? ->]|[? ->]], Ca' as [[? ->]|[? ->]];
                              congruence).
  assert (qb' = qb) as -> by (destruct Cb as [[? ->]|[? ->]], Cb' as [[? ->]|[? ->]];
                              congruence).
  rewrite Eb', Ea', Ea, Eb. unfold set_store; simpl.
  f_equal. by apply insert_insert_ne.
Qed.

Lemma check_commute_witness :
  let self := __init__ Config.default_settings 2 100 in
  "alice" ≠ "bob" ∧
  (check 5 (check 3 self "alice" 70).1 "bob" 200).1
    = (check 3 (check 5 self "bob" 200).1 "alice" 70).1 ∧
  (check 5 (check 3 self "alice" 70).1 "bob" 200).2 = Raised TOKEN_RATE_EXCEEDED.
Proof.
  intros self.
  destruct (check_commute 3 5 self "alice" "bob" 70 200 ltac:(discriminate))
    as (Hst & _ & Hb).
  split; [discriminate|]. split; [exact Hst|].
  rewrite Hb. vm_compute. reflexivity.
Defined.

(** A call whose identity has no entry younger than 60 seconds sees an
    empty window: it is admitted as soon as its tokens fit the token
    ceiling (or the ceiling is disabled), whatever the request ceiling and
    the history, and afterwards the identity's quota holds this call
    alone. *)
Theorem check_after_quiet_minute now self ident tok :
  Forall (λ t, t ≤ now - 60) (reqs (quota_of self ident)) →
  Forall (λ e, e.1 ≤ now - 60) (tokens (quota_of self ident)) →
  tokens_per_minute self ≤ 0 ∨ tok ≤ tokens_per_minute self →
  check now self ident tok =
    (set_store self
       (<[ident := {| reqs := [now]; tokens := [(now, tok)] |}]> (_store self)),
     Returned).
Proof.
  intros Hr Ht Hfit. rewrite check_eq. unfold purge, record; simpl.
  rewrite (purge_reqs_all _ _ Hr), (purge_tokens_all _ _ Ht). simpl.
  repeat case_match; try done; bool_lia.
Qed.

Lemma check_after_quiet_minute_witness :
  let calls := [ {| at_time := 0; identity := "id"; tokens_requested := 60 |};
                 {| at_time := 1; identity := "id"; tokens_requested := 40 |} ] in
  let self := (run (__init__ Config.default_settings 2 100) calls).1 in
  (check 30 self "id" 1).2 = Raised REQUEST_RATE_EXCEEDED ∧
  check 61 self "id" 100 =
    (set_store self
       (<["id" := {| reqs := [61]; tokens := [(61, 100)] |}]> (_store self)),
     Returned).
Proof.
  intros calls self. split; [vm_compute; reflexivity|].
  apply check_after_quiet_minute.
  - vm_compute. repeat constructor; discriminate.
  - vm_compute. repeat constructor; discriminate.
  - right. vm_compute. discriminate.
Defined.

(** A request asking for more tokens than a positive token ceiling is
    never admitted, in any state reached by calls whose token counts are
    not negative, however long the caller waits. *)
Theorem oversized_request_never_passes settings rpm tpm calls now ident tok :
  0 < tokens_per_minute (__init__ settings rpm tpm) →
  Forall (λ c, 0 ≤ tokens_requested c) calls →
  tokens_per_minute (__init__ settings rpm tpm) < tok →
  (check now (run (__init__ settings rpm tpm) calls).1 ident tok).2 ≠ Returned.
Proof.
  intros Hpos Hcalls Hbig.
  destruct (tokens_Bounded (__init__ settings rpm tpm) calls eq_refl Hcalls) as [Hnn _].
  destruct (foldl_step_limits calls (__init__ settings rpm tpm, [])) as [_ Ht].
  fold (run (__init__ settings rpm tpm) calls) in Ht.
  change ((__init__ settings rpm tpm, @nil Call).1) with (__init__ settings rpm tpm) in Ht.
  set (self := (run (__init__ settings rpm tpm) calls).1) in *.
  destruct (purge_tokens_total (now - 60) (tokens (quota_of self ident)) (Hnn ident))
    as [Hp _].
  apply total_tokens_nonneg in Hp.
  rewrite check_eq. simpl. rewrite Ht.
  repeat case_match; simpl; try discriminate. bool_lia.
Qed.

Lemma oversized_request_never_passes_witness :
  let calls := [ {| at_time := 0; identity := "id"; tokens_requested := 60 |} ] in
  (check 1000 (run (__init__ Config.default_settings 5 100) calls).1 "id" 101).2
  ≠ Returned.
Proof.
  intros calls.
  apply (oversized_request_never_passes Config.default_settings 5 100 calls 1000 "id" 101).
  - reflexivity.
  - repeat constructor; simpl; lia.
  - reflexivity.
Defined.

(** Retrying a rejected call at the same instant is rejected for the same
    reason and changes nothing more: the state left by a rejection is a
    fixed point of the rejected call. *)
Theorem rejection_is_stable now self ident tok self' e :
  check now self ident tok = (self', Raised e) →
  check now self' ident tok = (self', Raised e).
Proof.
  intros Hc.
  destruct (check_cases _ _ _ _ _ _ Hc) as [[-> _]|[_ ?]]; [|done].
  rewrite check_eq in Hc. rewrite check_eq. simpl in *.
  rewrite quota_of_insert, decide_True by done.
  unfold purge in *; simpl in *.
  rewrite purge_reqs_idem, purge_tokens_idem, !insert_insert_eq.
  repeat case_match; simplify_eq; done.
Qed.

Lemma rejection_is_stable_witness :
  let calls := [ {| at_time := 0; identity := "id"; tokens_requested := 60 |};
                 {| at_time := 10; identity := "id"; tokens_requested := 30 |} ] in
  let self := (run (__init__ Config.default_settings 5 100) calls).1 in
  let self' := (check 65 self "id" 80).1 in
  check 65 self "id" 80 = (self', Raised TOKEN_RATE_EXCEEDED) ∧
  check 65 self' "id" 80 = (self', Raised TOKEN_RATE_EXCEEDED).
Proof.
  intros calls self self'.
  assert (Hc : check 65 self "id" 80 = (self', Raised TOKEN_RATE_EXCEEDED))
    by (vm_compute; reflexivity).
  split; [exact Hc|]. exact (rejection_is_stable 65 self "id" 80 self' _ Hc).
Defined.

(** *** The deques under a clock that does not go back *)

Lemma purge_reqs_StronglySorted ws d :
  StronglySorted Z.le d →
  StronglySorted Z.le (purge_reqs ws d) ∧ Forall (λ t, ws < t) (purge_reqs ws d).
Proof.
  induction 1 as [|t d Hd IH Ht]; simpl; [by split; constructor|].
  destruct (Z.leb_spec t ws); [done|]. split; [by constructor|].
  constructor; [done|]. eapply Forall_impl; [exact Ht|]. simpl. lia.
Qed.

Lemma check_keeps_sorted clk now self ident tok :
  (∀ i, StronglySorted Z.le (reqs (quota_of self i)) ∧
        Forall (λ t, t ≤ clk) (reqs (quota_of self i))) →
  clk ≤ now →
  (∀ i, StronglySorted Z.le (reqs (quota_of (check now self ident tok).1 i)) ∧
        Forall (λ t, t ≤ now) (reqs (quota_of (check now self ident tok).1 i))) ∧
  Forall (λ t, now - 60 < t) (reqs (quota_of (check now self ident tok).1 ident)).
Proof.
  intros HP Hclk.
  destruct (HP ident) as [Hs Hle].
  destruct (purge_reqs_StronglySorted (now - 60) _ Hs) as [Hps Hfresh].
  assert (Hple : Forall (λ t, t ≤ now) (purge_reqs (now - 60) (reqs (quota_of self ident)))).
  { destruct (purge_reqs_suffix (now - 60) (reqs (quota_of self ident))) as [k Hk].
    rewrite Hk in Hle. apply Forall_app in Hle as [_ Hle].
    eapply Forall_impl; [exact Hle|]. simpl. lia. }
  assert (Hother : ∀ i, StronglySorted Z.le (reqs (quota_of self i)) ∧
                        Forall (λ t, t ≤ now) (reqs (quota_of self i))).
  { intros i. destruct (HP i) as [? Hi]. split; [done|].
    eapply Forall_impl; [exact Hi|]. simpl. lia. }
  destruct (check now self ident tok) as [self' o] eqn:Hc.
  destruct (check_cases _ _ _ _ _ _ Hc) as [[-> _]|[-> _]]; simpl.
  - split.
    + intros i. rewrite quota_of_insert. case_decide; subst; [done | apply Hother].
    + by rewrite quota_of_insert, decide_True.
  - assert (Hrec : StronglySorted Z.le
                     (purge_reqs (now - 60) (reqs (quota_of self ident)) ++ [now])).
    { apply StronglySorted_app_2; [|done|repeat constructor].
      intros t1 t2 Ht1 ->%list_elem_of_singleton.
      rewrite Forall_forall in Hple. by apply Hple. }
    assert (Hrecle : Forall (λ t, t ≤ now)
                       (purge_reqs (now - 60) (reqs (quota_of self ident)) ++ [now])).
    { apply Forall_app. split; [done|]. by apply Forall_singleton. }
    split.
    + intros i. rewrite quota_of_insert. case_decide; subst; [done | apply Hother].
    + rewrite quota_of_insert, decide_True by done. simpl.
      apply Forall_app. split; [done|]. apply Forall_singleton. lia.
Qed.

Lemma foldl_step_keeps_sorted calls : ∀ clk st hi,
  (∀ i, StronglySorted Z.le (reqs (quota_of st.1 i)) ∧
        Forall (λ t, t ≤ clk) (reqs (quota_of st.1 i))) →
  Sorted Z.le (clk :: (at_time <$> calls)) →
  Forall (λ c, at_time c ≤ hi) calls →
  clk ≤ hi →
  ∀ i, StronglySorted Z.le (reqs (quota_of (foldl step st calls).1 i)) ∧
       Forall (λ t, t ≤ hi) (reqs (quota_of (foldl step st calls).1 i)).
Proof.
  induction calls as [|c calls IH]; intros clk st hi HP Hs Hhi Hclk; simpl.
  - intros i. destruct (HP i) as [? Hi]. split; [done|].
    eapply Forall_impl; [exact Hi|]. simpl. lia.
  - apply Sorted_inv in Hs as [Hs Hhd]. apply HdRel_inv in Hhd.
    apply Forall_cons in Hhi as [Hc Hhi].
    apply (IH (at_time c)); [|done|done|done].
    destruct (check_keeps_sorted clk (at_time c) st.1 (identity c) (tokens_requested c)
                HP Hhd) as [HP' _].
    unfold step.
    by destruct (check (at_time c) st.1 (identity c) (tokens_requested c)) as [s []].
Qed.

(** With a clock that does not go back, after any sequence of calls ending
    with the call [c]: every identity's [requests] deque is sorted
    ascending, carries exactly the timestamps of its [token_events], and
    holds nothing later than the last clock reading; and the deque of the
    identity just checked holds only timestamps of the current window
    (at_time c - 60, at_time c]: every expired entry has been purged. *)
Theorem deques_sorted_and_purged settings rpm tpm calls c ident :
  Sorted Z.le (at_time <$> (calls ++ [c])) →
  let q := quota_of (run (__init__ settings rpm tpm) (calls ++ [c])).1 ident in
  reqs q = (tokens q).*1 ∧
  Sorted Z.le (reqs q) ∧
  Forall (λ t, t ≤ at_time c) (reqs q) ∧
  (ident = identity c → Forall (λ t, at_time c - 60 < t) (reqs q)).
Proof.
  intros Hs q.
  destruct (run_well_shaped (__init__ settings rpm tpm) (calls ++ [c]) eq_refl ident)
    as [Heq _].
  split; [exact Heq|].
  assert (Hss : StronglySorted Z.le (at_time <$> (calls ++ [c]))).
  { apply Sorted_StronglySorted; [apply _ | done]. }
  rewrite fmap_app in Hs, Hss. simpl in Hss.
  assert (Hhi : Forall (λ c', at_time c' ≤ at_time c) calls).
  { apply Forall_forall. intros c' Hc'.
    apply (StronglySorted_app_1_elem_of _ _ _ _ _ Hss).
    - by apply list_elem_of_fmap_2.
    - by apply list_elem_of_singleton. }
  assert (HP : ∀ i, StronglySorted Z.le
                      (reqs (quota_of (run (__init__ settings rpm tpm) calls).1 i)) ∧
                    Forall (λ t, t ≤ at_time c)
                      (reqs (quota_of (run (__init__ settings rpm tpm) calls).1 i))).
  { assert (Hinit : ∀ clk i,
              StronglySorted Z.le (reqs (quota_of (__init__ settings rpm tpm, @nil Call).1 i)) ∧
              Forall (λ t, t ≤ clk) (reqs (quota_of (__init__ settings rpm tpm, @nil Call).1 i))).
    { intros clk i. unfold quota_of; simpl. rewrite lookup_empty. simpl.
      split; constructor. }
    unfold run. destruct calls as [|c0 calls]; [apply Hinit|].
    apply (foldl_step_keeps_sorted (c0 :: calls) (at_time c0)); [apply Hinit | | done |].
    - constructor; [|constructor; simpl; lia].
      apply Sorted_StronglySorted in Hs; [|apply _].
      apply StronglySorted_app_1_l in Hs. by apply StronglySorted_Sorted.
    - by apply Forall_cons in Hhi as [? _]. }
  unfold q, run. rewrite foldl_snoc.
  fold (run (__init__ settings rpm tpm) calls).
  destruct (check_keeps_sorted (at_time c) (at_time c)
              (run (__init__ settings rpm tpm) calls).1 (identity c) (tokens_requested c)
              HP ltac:(lia)) as [HP' Hfresh].
  assert (Hstep : (step (run (__init__ settings rpm tpm) calls) c).1
                  = (check (at_time c) (run (__init__ settings rpm tpm) calls).1
                       (identity c) (tokens_requested c)).1).
  { unfold step.
    by destruct (check (at_time c) (run (__init__ settings rpm tpm) calls).1
                   (identity c) (tokens_requested c)) as [s []]. }
  rewrite Hstep. destruct (HP' ident) as [Hsorted Hle].
  split; [by apply StronglySorted_Sorted|]. split; [done|].
  by intros ->.
Qed.

Lemma deques_sorted_and_purged_witness :
  let calls := [ {| at_time := 0; identity := "id"; tokens_requested := 10 |};
                 {| at_time := 30; identity := "id"; tokens_requested := 10 |};
                 {| at_time := 45; identity := "other"; tokens_requested := 10 |} ] in
  let c := {| at_time := 70; identity := "id"; tokens_requested := 10 |} in
  let q := quota_of (run (__init__ Config.default_settings 5 100) (calls ++ [c])).1 "id" in
  Sorted Z.le (at_time <$> (calls ++ [c])) ∧
  reqs q = [30; 70] ∧
  Sorted Z.le (reqs q) ∧
  Forall (λ t, 70 - 60 < t) (reqs q).
Proof.
  intros calls c q.
  assert (Hs : Sorted Z.le (at_time <$> (calls ++ [c])))
    by (repeat constructor; simpl; lia).
  destruct (deques_sorted_and_purged Config.default_settings 5 100 calls c "id" Hs)
    as (_ & Hsorted & _ & Hfresh).
  split; [exact Hs|]. split; [vm_compute; reflexivity|].
  split; [exact Hsorted | exact (Hfresh eq_refl)].
Defined.

End RateLimitMore.

(** * Further properties of the context reducer *)

Module ReducerMore.
Import Reducer ReducerProofs.

(** *** Masked positions rank last *)

(** After the sort every finite score precedes every masked one. *)
Lemma insert_desc_split x a b :
  Forall (λ y : nat * Score, y.2 ≠ NegInf) a →
  Forall (λ y : nat * Score, y.2 = NegInf) b →
  ∃ a' b', insert_desc x (a ++ b) = a' ++ b' ∧
           Forall (λ y, y.2 ≠ NegInf) a' ∧ Forall (λ y, y.2 = NegInf) b'.
Proof.
  intros Ha Hb. induction Ha as [|y a Hy Ha IH]; simpl.
  - destruct x as [i [|q]].
    + exists [], (insert_desc (i, NegInf) b). split; [done|]. split; [constructor|].
      clear -Hb. induction Hb as [|y b Hy Hb IH]; simpl; [by repeat constructor|].
      case_match; repeat constructor; done.
    + exists [(i, Fin q)], b. split; [|by repeat constructor].
      destruct Hb as [|y b Hy Hb]; simpl; [done|].
      by rewrite Hy.
  - destruct IH as (a' & b' & Heq & Ha' & Hb').
    case_match.
    + destruct x as [i [|q]].
      * destruct y as [j [|r]]; simpl in *; done.
      * exists ((i, Fin q) :: y :: a), b. split; [done|]. by repeat constructor.
    + exists (y :: a'), b'. rewrite Heq. split; [done|]. by split; [constructor|].
Qed.

Lemma sort_desc_split l :
  ∃ a b, sort_desc l = a ++ b ∧
         Forall (λ y, y.2 ≠ NegInf) a ∧ Forall (λ y, y.2 = NegInf) b.
Proof.
  unfold sort_desc. induction l as [|x l (a & b & Heq & Ha & Hb)]; simpl.
  - exists [], []. by repeat constructor.
  - rewrite Heq. by apply insert_desc_split.
Qed.

Lemma elem_of_ranked start (relevance : list Q) i s :
  (i, s) ∈ zip (seq 0 (length relevance)) (mask_prefix start relevance) →
  (i < length relevance)%nat ∧ (s ≠ NegInf ↔ (start ≤ i)%nat).
Proof.
  intros Hin. apply list_elem_of_lookup_1 in Hin as [j Hj].
  apply lookup_zip_with_Some in Hj as (i' & s' & [= <- <-] & Hi & Hs).
  apply lookup_seq in Hi as [-> Hlt]. simpl.
  unfold mask_prefix in Hs. rewrite list_lookup_imap in Hs.
  destruct (relevance !! j) as [q|]; [|done]. simpl in Hs. injection Hs as <-.
  split; [done|]. destruct (Nat.ltb_spec j start); split; try done; lia.
Qed.

Lemma ranked_in start (relevance : list Q) i :
  (start ≤ i < length relevance)%nat →
  ∃ q, (i, Fin q) ∈ zip (seq 0 (length relevance)) (mask_prefix start relevance).
Proof.
  intros [Hs Hlt].
  destruct (lookup_lt_is_Some_2 relevance i Hlt) as [q Hq].
  exists q. apply (list_elem_of_lookup_2 _ i).
  apply lookup_zip_with_Some. exists i, (Fin q). split; [done|]. split.
  - by rewrite lookup_seq_lt.
  - unfold mask_prefix. rewrite list_lookup_imap, Hq. simpl.
    destruct (Nat.ltb_spec i start); [lia | done].
Qed.

(** When [k] is at most the number of positions after the masked prefix,
    [topk] returns none of the masked positions. *)
Lemma topk_skips_masked start (relevance : list Q) k top_indices :
  topk (mask_prefix start relevance) k = Ok top_indices →
  k ≤ Z.of_nat (length relevance) - Z.of_nat start →
  Forall (λ i, (start ≤ i)%nat) top_indices.
Proof.
  unfold topk. case_match eqn:Hk; [done|]. intros [= <-] Hfit.
  apply orb_false_iff in Hk as [Hk1%Z.ltb_ge _].
  unfold mask_prefix at 1 2. rewrite length_imap.
  fold (mask_prefix start relevance).
  set (n := length relevance) in *.
  set (pairs := zip (seq 0 n) (mask_prefix start relevance)).
  destruct (sort_desc_split pairs) as (a & b & Heq & Ha & Hb).
  pose proof (sort_desc_Permutation pairs) as Hperm. rewrite Heq in Hperm.
  assert (Hlen : (n - start ≤ length a.*1)%nat).
  { assert (length (seq start (n - start)) ≤ length a.*1)%nat as Hsub;
      [|by rewrite length_seq in Hsub].
    apply submseteq_length, NoDup_submseteq; [apply NoDup_seq|].
    intros i [Hi1 Hi2]%elem_of_seq.
    destruct (ranked_in start relevance i ltac:(fold n; lia)) as [q Hq].
    fold n pairs in Hq. rewrite <- Hperm in Hq.
    apply elem_of_app in Hq as [Hq|Hq].
    - by apply (list_elem_of_fmap_2 fst) in Hq.
    - rewrite Forall_forall in Hb. by specialize (Hb _ Hq). }
  rewrite Heq, fmap_app, take_app_le by lia.
  apply Forall_take, Forall_fmap, Forall_forall. intros [i s] His. simpl.
  rewrite Forall_forall in Ha. specialize (Ha _ His). simpl in Ha.
  assert (Hin : (i, s) ∈ pairs) by (rewrite <- Hperm; apply elem_of_app; by left).
  apply elem_of_ranked in Hin as [_ Hiff]. by apply Hiff.
Qed.

Lemma gather_in_range (row : list Z) positions :
  length row ≠ 1%nat →
  Forall (λ i, (i < length row)%nat) positions →
  ∃ selected, gather row positions = Ok selected.
Proof.
  intros Hone Hrange. unfold gather.
  destruct (mapM_is_Some_2 (λ i, row !! i) positions) as [selected Hsel].
  { eapply Forall_impl; [exact Hrange|]. intros i Hi. simpl.
    by apply lookup_lt_is_Some_2. }
  exists selected. rewrite Hsel. by destruct row as [|x [|y row]].
Qed.

Lemma last_drop_lt {A} (l : list A) i : (i < length l)%nat → last (drop i l) = last l.
Proof.
  intros Hi. rewrite !last_lookup, lookup_drop, length_drop. f_equal. lia.
Qed.

(** The fallback selection again selects itself: selecting from an already
    reduced token list changes nothing, for every [top_k]. *)
Theorem fallback_select_idempotent top_k (context_ids : list Z) :
  fallback_select top_k (fallback_select top_k context_ids)
  = fallback_select top_k context_ids.
Proof.
  rewrite (fallback_select_eq top_k context_ids).
  destruct (Z.leb_spec (Z.of_nat (length context_ids)) top_k) as [Hle|Hgt].
  { rewrite fallback_select_eq.
    by destruct (Z.leb_spec (Z.of_nat (length context_ids)) top_k); [|lia]. }
  destruct (half_bounds top_k) as (Hh1 & Hh2 & Hh3).
  set (h := Z.to_nat (Z.max (top_k / 2) 1)) in *.
  set (n := length context_ids) in *.
  set (sel := take h context_ids ++ drop (n - h) context_ids).
  assert (Hlen : length sel = (2 * (h `min` n))%nat).
  { unfold sel. rewrite length_app, length_take, length_drop. fold n. lia. }
  rewrite fallback_select_eq. fold h. rewrite Hlen.
  destruct (Z.leb_spec (Z.of_nat (2 * (h `min` n))) top_k) as [|Hbig]; [done|].
  destruct (decide (h ≤ n)%nat) as [Hhn|Hhn].
  - replace (2 * (h `min` n) - h)%nat with h by lia.
    assert (Hth : length (take h context_ids) = h) by (rewrite length_take; fold n; lia).
    unfold sel. rewrite take_app_length' by done.
    by rewrite drop_app_length' by done.
  - assert (n = 0%nat) as Hn0 by lia.
    apply nil_length_inv in Hn0. unfold sel. rewrite Hn0.
    rewrite !take_nil, !drop_nil. simpl. by rewrite take_nil, drop_nil.
Qed.

Section WithModel.
Variable tokenizer : string → list Z.
Variable decode : list Z → string.
Variable attentions : list Z → Z → Z → nat → Q.

(** [reduce] raises unless none of the tokenized separator, query and
    full text is a single token and, with retrieval heads, [top_k] is not
    negative.  Without retrieval heads, where the model is not run, these
    conditions on the three token rows are also enough: [reduce] returns
    exactly when they hold. *)
Theorem reduce_returns_only_if heads settings query context top_k :
  ((∃ r, reduce tokenizer decode heads attentions settings query context top_k = Ok r) →
   length (tokenizer sep) ≠ 1%nat ∧
   length (tokenizer query) ≠ 1%nat ∧
   length (tokenizer (query +:+ sep +:+ context)) ≠ 1%nat ∧
   (heads ≠ [] → 0 ≤ default (Config.top_k settings) top_k)) ∧
  ((∃ r, reduce tokenizer decode [] attentions settings query context top_k = Ok r)
   ↔ length (tokenizer sep) ≠ 1%nat ∧
     length (tokenizer query) ≠ 1%nat ∧
     length (tokenizer (query +:+ sep +:+ context)) ≠ 1%nat).
Proof.
  assert (Hfb : ∀ r,
    reduce tokenizer decode [] attentions settings query context top_k = Ok r →
    length (tokenizer sep) ≠ 1%nat ∧ length (tokenizer query) ≠ 1%nat ∧
    length (tokenizer (query +:+ sep +:+ context)) ≠ 1%nat).
  { intros r Hr.
    apply reduce_fallback_Ok in Hr as (start_idx & Hs & Hone & _).
    apply context_start_Ok in Hs as (? & ? & _). done. }
  split; [|split].
  - intros [r Hr]. destruct heads as [|head heads].
    + apply Hfb in Hr as (? & ? & ?). done.
    + apply reduce_oracle_Ok in Hr as (start_idx & positions & selected & Hs & Hp & Hg & _).
      apply context_start_Ok in Hs as (? & ? & _).
      apply select_positions_Ok in Hp as (? & _).
      apply gather_Ok in Hg as [? _]. done.
  - intros [r Hr]. by apply Hfb in Hr.
  - intros (Hsep & Hq & Hone).
    assert (Hs : context_start tokenizer query
                 = Ok (length (tokenizer query) + length (tokenizer sep))%nat).
    { unfold context_start.
      destruct (tokenizer sep) as [|x [|y l]], (tokenizer query) as [|x' [|y' l']];
        done. }
    unfold reduce. rewrite Hs, bind_Ok.
    destruct (tokenizer (query +:+ sep +:+ context)) as [|x [|y l]] eqn:Hids;
      [| done |]; simpl; eauto.
Qed.

(** On the oracle path [reduce] keeps exactly [min(top_k, tokens_before)]
    tokens: the count is taken against the whole sequence, query and
    separator included. *)
Theorem oracle_keeps_min_tokens head heads settings query context top_k
    condensed tokens_before tokens_after :
  reduce tokenizer decode (head :: heads) attentions settings query context top_k
    = Ok (condensed, tokens_before, tokens_after) →
  tokens_before = Z.of_nat (length (tokenizer (query +:+ sep +:+ context))) ∧
  tokens_after = Z.min (default (Config.top_k settings) top_k) tokens_before.
Proof.
  intros Hr.
  apply reduce_oracle_Ok in Hr as (start_idx & positions & selected & _ & Hp & Hg & Hr).
  injection Hr as _ -> ->. split; [done|].
  apply select_positions_Ok in Hp as (_ & Hlen & _ & _).
  apply gather_Ok in Hg as [_ Hsel%Forall2_length].
  unfold mask_prefix in Hlen.
  rewrite length_imap, length_relevance_of in Hlen. lia.
Qed.

(** On the oracle path, when [top_k] is at most the number of tokens after
    the query and the separator, only context tokens are selected: every
    selected position lies after the masked prefix, and the selection is a
    subsequence of the context tokens. *)
Theorem oracle_selects_context_only head heads settings query context top_k
    condensed tokens_before tokens_after start_idx :
  reduce tokenizer decode (head :: heads) attentions settings query context top_k
    = Ok (condensed, tokens_before, tokens_after) →
  context_start tokenizer query = Ok start_idx →
  default (Config.top_k settings) top_k ≤ tokens_before - Z.of_nat start_idx →
  ∃ positions selected,
    condensed = decode selected ∧
    Forall2 (λ i x, tokenizer (query +:+ sep +:+ context) !! i = Some x)
      positions selected ∧
    Forall (λ i, (start_idx ≤ i)%nat) positions ∧
    selected `sublist_of` drop start_idx (tokenizer (query +:+ sep +:+ context)).
Proof.
  intros Hr Hs Hfit.
  apply reduce_oracle_Ok in Hr as (start' & positions & selected & Hs' & Hp & Hg & Hr).
  rewrite Hs in Hs'. injection Hs' as <-. injection Hr as -> -> _.
  apply gather_Ok in Hg as [_ Hsel].
  pose proof (select_positions_Ok _ _ _ Hp) as (Hk & _ & Hsorted & _).
  assert (Hafter : Forall (λ i, (start_idx ≤ i)%nat) positions).
  { unfold select_positions in Hp.
    destruct (topk _ _) as [top_indices|] eqn:Htop; [|done].
    cbn in Hp. injection Hp as <-.
    unfold mask_prefix in Htop at 2. rewrite length_imap in Htop.
    apply topk_skips_masked in Htop.
    - unfold sort_indices. by rewrite merge_sort_Permutation.
    - rewrite length_relevance_of. lia. }
  exists positions, selected. split; [done|]. split; [done|]. split; [done|].
  by apply (positions_sublist _ positions).
Qed.

(** On the fallback path the first and the last token of the slice the
    code takes for the context are always kept, for every [top_k]. *)
Lemma fallback_keeps_slice_ends settings query context top_k
    condensed tokens_before tokens_after :
  reduce tokenizer decode [] attentions settings query context top_k
    = Ok (condensed, tokens_before, tokens_after) →
  ∃ start_idx selected,
    context_start tokenizer query = Ok start_idx ∧
    condensed = decode selected ∧
    tokens_after = Z.of_nat (length selected) ∧
    let context_ids := drop start_idx (tokenizer (query +:+ sep +:+ context)) in
    head selected = head context_ids ∧
    last selected = last context_ids ∧
    (context_ids ≠ [] → 0 < tokens_after).
Proof.
  intros Hr.
  apply reduce_fallback_Ok in Hr as (start_idx & Hs & _ & Hr).
  cbv zeta in Hr. injection Hr as -> _ ->.
  exists start_idx, (fallback_select (default (Config.top_k settings) top_k)
                       (drop start_idx (tokenizer (query +:+ sep +:+ context)))).
  split; [done|]. split; [done|]. split; [done|]. cbv zeta.
  set (k := default (Config.top_k settings) top_k).
  set (ctx := drop start_idx (tokenizer (query +:+ sep +:+ context))).
  rewrite fallback_select_eq.
  destruct (Z.leb_spec (Z.of_nat (length ctx)) k).
  { split; [done|]. split; [done|]. intros Hne. destruct ctx; [done | simpl; lia]. }
  destruct (half_bounds k) as (Hh1 & _ & _).
  set (h := Z.to_nat (Z.max (k / 2) 1)) in *.
  destruct ctx as [|x ctx'] eqn:Hctx; [by destruct h|].
  rewrite <- Hctx.
  assert (Hn : (0 < length ctx)%nat) by (rewrite Hctx; simpl; lia).
  assert (Hd : drop (length ctx - h) ctx ≠ []).
  { intros Hnil%(f_equal length). rewrite length_drop in Hnil. simpl in Hnil. lia. }
  split; [|split].
  - rewrite Hctx. destruct h; [lia | done].
  - destruct (drop (length ctx - h) ctx) as [|y d] eqn:Hdrop; [done|].
    rewrite last_app_cons, <- Hdrop. apply last_drop_lt. lia.
  - intros _. rewrite length_app, length_take, length_drop. lia.
Qed.

(** On the fallback path, with a tokenizer under which the full text
    tokenizes to the tokens of the query, then those of the separator,
    then the tokens [ctx] of the context, the first and the last token of
    the context are always kept, for every [top_k]; a non-empty context
    is never reduced to nothing. *)
Theorem fallback_keeps_first_and_last settings query context top_k
    condensed tokens_before tokens_after ctx :
  reduce tokenizer decode [] attentions settings query context top_k
    = Ok (condensed, tokens_before, tokens_after) →
  tokenizer (query +:+ sep +:+ context) = tokenizer query ++ tokenizer sep ++ ctx →
  ∃ selected,
    condensed = decode selected ∧
    tokens_after = Z.of_nat (length selected) ∧
    head selected = head ctx ∧
    last selected = last ctx ∧
    (ctx ≠ [] → 0 < tokens_after).
Proof.
  intros Hr Hfull.
  destruct (fallback_keeps_slice_ends _ _ _ _ _ _ _ Hr)
    as (start_idx & selected & Hs & Hc & Ht & Hends).
  apply context_start_Ok in Hs as (_ & _ & ->).
  cbv zeta in Hends.
  rewrite Hfull, app_assoc, drop_app_length' in Hends by by rewrite length_app.
  by exists selected.
Qed.

End WithModel.

Lemma reduce_returns_only_if_witness :
  ¬ (∃ r, reduce char_tokenizer char_decode [(0, 0)] scenario_attentions
            Config.default_settings "hi" "abcd" (Some (-1)) = Ok r) ∧
  ¬ (∃ r, reduce char_tokenizer char_decode [] scenario_attentions
            Config.default_settings "a" "abcd" None = Ok r) ∧
  ¬ (∃ r, reduce bos_tokenizer bos_decode [] scenario_attentions
            Config.default_settings EmptyString "abcd" None = Ok r) ∧
  (∃ r, reduce char_tokenizer char_decode [] scenario_attentions
          Config.default_settings "hi" "abcd" (Some (-1)) = Ok r).
Proof.
  split; [|split; [|split]].
  - intros Hr.
    apply (reduce_returns_only_if char_tokenizer char_decode scenario_attentions
             [(0, 0)] Config.default_settings "hi" "abcd" (Some (-1)))
      in Hr as (_ & _ & _ & Hk).
    specialize (Hk ltac:(discriminate)). vm_compute in Hk. by apply Hk.
  - intros Hr.
    apply (reduce_returns_only_if char_tokenizer char_decode scenario_attentions
             [] Config.default_settings "a" "abcd" None)
      in Hr as (_ & Hq & _).
    by apply Hq.
  - intros Hr.
    apply (reduce_returns_only_if bos_tokenizer bos_decode scenario_attentions
             [] Config.default_settings EmptyString "abcd" None)
      in Hr as (_ & Hq & _).
    by apply Hq.
  - apply (reduce_returns_only_if char_tokenizer char_decode scenario_attentions
             [] Config.default_settings "hi" "abcd" (Some (-1))).
    repeat split; vm_compute; discriminate.
Defined.

Lemma oracle_keeps_min_tokens_witness :
  reduce char_tokenizer char_decode [(0, 0)] scenario_attentions
    Config.default_settings "hi" "abcd" (Some 3) = Ok ("bcd", 25, 3) ∧
  25 = Z.of_nat (length (char_tokenizer ("hi" +:+ sep +:+ "abcd"))) ∧
  3 = Z.min (default (Config.top_k Config.default_settings) (Some 3)) 25.
Proof.
  assert (Hr : reduce char_tokenizer char_decode [(0, 0)] scenario_attentions
                 Config.default_settings "hi" "abcd" (Some 3)
               = Ok ("bcd", 25, 3)) by (vm_compute; reflexivity).
  split; [exact Hr|].
  exact (oracle_keeps_min_tokens char_tokenizer char_decode scenario_attentions
           (0, 0) [] Config.default_settings "hi" "abcd" (Some 3) "bcd" 25 3 Hr).
Defined.

Lemma oracle_selects_context_only_witness :
  reduce char_tokenizer char_decode [(0, 0)] scenario_attentions
    Config.default_settings "hi" "abcd" (Some 3) = Ok ("bcd", 25, 3) ∧
  context_start char_tokenizer "hi" = Ok 21%nat ∧
  3 ≤ 25 - Z.of_nat 21 ∧
  ∃ positions selected,
    "bcd" = char_decode selected ∧
    Forall2 (λ i x, char_tokenizer ("hi" +:+ sep +:+ "abcd") !! i = Some x)
      positions selected ∧
    Forall (λ i, (21 ≤ i)%nat) positions ∧
    selected `sublist_of` drop 21 (char_tokenizer ("hi" +:+ sep +:+ "abcd")).
Proof.
  assert (Hr : reduce char_tokenizer char_decode [(0, 0)] scenario_attentions
                 Config.default_settings "hi" "abcd" (Some 3)
               = Ok ("bcd", 25, 3)) by (vm_compute; reflexivity).
  assert (Hs : context_start char_tokenizer "hi" = Ok 21%nat)
    by (vm_compute; reflexivity).
  split; [exact Hr|]. split; [exact Hs|]. split; [lia|].
  apply (oracle_selects_context_only char_tokenizer char_decode scenario_attentions
           (0, 0) [] Config.default_settings "hi" "abcd" (Some 3) "bcd" 25 3 21 Hr Hs).
  simpl. lia.
Defined.

Lemma fallback_keeps_first_and_last_witness :
  let ctx := char_tokenizer "abcdefghij" in
  reduce char_tokenizer char_decode [] scenario_attentions
    Config.default_settings "hi" "abcdefghij" (Some 0) = Ok ("aj", 31, 2) ∧
  char_tokenizer ("hi" +:+ sep +:+ "abcdefghij")
    = char_tokenizer "hi" ++ char_tokenizer sep ++ ctx ∧
  ∃ selected,
    "aj" = char_decode selected ∧
    2 = Z.of_nat (length selected) ∧
    head selected = head ctx ∧
    last selected = last ctx ∧
    (ctx ≠ [] → 0 < 2).
Proof.
  intros ctx.
  assert (Hr : reduce char_tokenizer char_decode [] scenario_attentions
                 Config.default_settings "hi" "abcdefghij" (Some 0)
               = Ok ("aj", 31, 2)) by (vm_compute; reflexivity).
  assert (Hfull : char_tokenizer ("hi" +:+ sep +:+ "abcdefghij")
                  = char_tokenizer "hi" ++ char_tokenizer sep ++ ctx)
    by (vm_compute; reflexivity).
  split; [exact Hr|]. split; [exact Hfull|].
  exact (fallback_keeps_first_and_last char_tokenizer char_decode scenario_attentions
           Config.default_settings "hi" "abcdefghij" (Some 0) "aj" 31 2 ctx Hr Hfull).
Defined.

End ReducerMore.

(** * Properties of the string methods *)

Module PyStrProofs.
Import PyStr.

Lemma append_assoc (a b c : string) : (a +:+ b) +:+ c = a +:+ b +:+ c.
Proof.
  induction a as [|x a IH]; [done|].
  change ((String x a +:+ b) +:+ c) with (String x ((a +:+ b) +:+ c)).
  by rewrite IH.
Qed.

Lemma append_empty_r (a : string) : a +:+ EmptyString = a.
Proof.
  induction a as [|x a IH]; [done|].
  change (String x a +:+ EmptyString) with (String x (a +:+ EmptyString)).
  by rewrite IH.
Qed.

Lemma lstrip_chars_head P s c r : lstrip_chars P s = String c r → P c = false.
Proof.
  induction s as [|a s IH]; simpl; [done|].
  destruct (P a) eqn:Ha; [done|]. by intros [= <- _].
Qed.

Lemma lstrip_chars_fixed P c s : P c = false → lstrip_chars P (String c s) = String c s.
Proof. intros Hc. simpl. by rewrite Hc. Qed.

Lemma lstrip_chars_length P s :
  (String.length (lstrip_chars P s) ≤ String.length s)%nat ∧
  (String.length (lstrip_chars P s) = String.length s → lstrip_chars P s = s).
Proof.
  induction s as [|a s [IH1 IH2]]; simpl; [done|].
  destruct (P a); simpl; [|done]. split; [lia|]. intros. lia.
Qed.

Lemma rstrip_chars_cons P c s :
  rstrip_chars P (String c s) = EmptyString ∨
  ∃ r, rstrip_chars P (String c s) = String c r.
Proof.
  simpl. destruct (rstrip_chars P s); [destruct (P c)|]; eauto.
Qed.

Lemma rstrip_chars_length P s :
  (String.length (rstrip_chars P s) ≤ String.length s)%nat ∧
  (String.length (rstrip_chars P s) = String.length s → rstrip_chars P s = s).
Proof.
  induction s as [|a s [IH1 IH2]]; simpl; [done|].
  destruct (rstrip_chars P s) as [|b r] eqn:Hr; simpl in *.
  - destruct (P a); simpl; split; try lia.
    intros Hlen. rewrite IH2; [done | lia].
  - split; [lia|]. intros Hlen. rewrite IH2; [done | lia].
Qed.

Lemma rstrip_chars_idem P s : rstrip_chars P (rstrip_chars P s) = rstrip_chars P s.
Proof.
  induction s as [|a s IH]; simpl; [done|].
  destruct (rstrip_chars P s) as [|b r] eqn:Hr.
  - destruct (P a) eqn:Ha; simpl; [done|]. by rewrite Ha.
  - change (rstrip_chars P (String a (String b r))) with
      (match rstrip_chars P (String b r) with
       | EmptyString => if P a then EmptyString else String a EmptyString
       | r' => String a r'
       end).
    by rewrite IH.
Qed.

Lemma rstrip_chars_all P s : all_chars P s = true → rstrip_chars P s = EmptyString.
Proof.
  induction s as [|a s IH]; simpl; [done|].
  intros [Ha Hs]%andb_true_iff. by rewrite IH, Ha.
Qed.

Lemma rstrip_chars_app P s b :
  all_chars P b = true → rstrip_chars P (s +:+ b) = rstrip_chars P s.
Proof.
  intros Hb. induction s as [|a s IH]; simpl; [by apply rstrip_chars_all|].
  by rewrite IH.
Qed.

Lemma lstrip_chars_app P a s :
  all_chars P a = true → lstrip_chars P (a +:+ s) = lstrip_chars P s.
Proof.
  induction a as [|c a IH]; simpl; [done|].
  intros [Hc Ha]%andb_true_iff. rewrite Hc. by apply IH.
Qed.

(** A stripped string is a fixed point of both strips. *)
Lemma strip_fixed s :
  strip s = s → lstrip_chars isspace s = s ∧ rstrip_chars isspace s = s.
Proof.
  unfold strip. intros Hs.
  destruct (lstrip_chars_length isspace s) as [Hl1 Hl2].
  destruct (rstrip_chars_length isspace (lstrip_chars isspace s)) as [Hr1 _].
  assert (Hl : lstrip_chars isspace s = s).
  { apply Hl2. rewrite Hs in Hr1. lia. }
  by rewrite Hl in Hs.
Qed.

Lemma strip_idem s : strip (strip s) = strip s.
Proof.
  unfold strip.
  destruct (lstrip_chars isspace s) as [|c t] eqn:Ht; [done|].
  pose proof (lstrip_chars_head _ _ _ _ Ht) as Hc.
  destruct (rstrip_chars_cons isspace c t) as [->|[r Hr]]; [done|].
  rewrite Hr, lstrip_chars_fixed by done.
  rewrite <- Hr. apply rstrip_chars_idem.
Qed.

(** Whitespace around a stripped, non-empty string is stripped away. *)
Lemma strip_padded a s b :
  strip s = s → s ≠ EmptyString →
  all_chars isspace a = true → all_chars isspace b = true →
  strip (a +:+ s +:+ b) = s.
Proof.
  intros Hs Hne Ha Hb. destruct (strip_fixed s Hs) as [Hl Hr].
  unfold strip. rewrite lstrip_chars_app by done.
  destruct s as [|c s]; [done|].
  pose proof (lstrip_chars_head _ _ _ _ Hl) as Hc.
  change (String c s +:+ b) with (String c (s +:+ b)).
  rewrite lstrip_chars_fixed by done.
  change (String c (s +:+ b)) with (String c s +:+ b).
  by rewrite rstrip_chars_app.
Qed.

Lemma mem_lstrip_chars P c s : mem c s = false → mem c (lstrip_chars P s) = false.
Proof.
  induction s as [|a s IH]; simpl; [done|].
  intros [Ha Hs]%orb_false_iff. destruct (P a); [by apply IH|].
  simpl. by rewrite Ha, Hs.
Qed.

Lemma mem_rstrip_chars P c s : mem c s = false → mem c (rstrip_chars P s) = false.
Proof.
  induction s as [|a s IH]; simpl; [done|].
  intros [Ha Hs]%orb_false_iff. specialize (IH Hs).
  destruct (rstrip_chars P s) as [|b r]; [destruct (P a)|]; simpl in *;
    by rewrite ?Ha, ?IH.
Qed.

Lemma mem_strip c s : mem c s = false → mem c (strip s) = false.
Proof. intros. by apply mem_rstrip_chars, mem_lstrip_chars. Qed.

(** No piece of [s.split(sep)] contains the separator. *)
Lemma split_no_sep sep s : Forall (λ w, mem sep w = false) (split sep s).
Proof.
  induction s as [|a s IH]; simpl; [by repeat constructor|].
  case_decide as Ha; [by constructor|].
  destruct (split sep s) as [|w ws]; [repeat constructor; simpl|].
  - by rewrite bool_decide_eq_false_2.
  - apply Forall_cons in IH as [Hw Hws]. constructor; [|done].
    simpl. by rewrite bool_decide_eq_false_2, Hw.
Qed.

Lemma split_nonempty sep s : split sep s ≠ [].
Proof.
  destruct s as [|a s]; simpl; [done|].
  case_decide; [done|]. by destruct (split sep s).
Qed.

Lemma split_single sep w : mem sep w = false → split sep w = [w].
Proof.
  induction w as [|a w IH]; simpl; [done|].
  intros [Ha%bool_decide_eq_false Hw]%orb_false_iff.
  rewrite decide_False by done. by rewrite IH.
Qed.

Lemma split_app_sep sep w rest :
  mem sep w = false →
  split sep (w +:+ String sep rest) = w :: split sep rest.
Proof.
  induction w as [|a w IH]; cbn [String.append]; simpl.
  - intros _. by rewrite decide_True.
  - intros [Ha%bool_decide_eq_false Hw]%orb_false_iff.
    rewrite decide_False by done. by rewrite IH.
Qed.

(** [split] undoes [join] for pieces without the separator. *)
Lemma split_join sep parts :
  parts ≠ [] →
  Forall (λ w, mem sep w = false) parts →
  split sep (join (String sep EmptyString) parts) = parts.
Proof.
  intros Hne Hparts. induction Hparts as [|w parts Hw Hparts IH]; [done|].
  destruct parts as [|w' parts]; [by apply split_single|].
  specialize (IH ltac:(done)).
  change (join (String sep EmptyString) (w :: w' :: parts)) with
    (w +:+ String sep EmptyString +:+ join (String sep EmptyString) (w' :: parts)).
  change (String sep EmptyString +:+ ?x) with (String sep x).
  rewrite split_app_sep by done. by rewrite IH.
Qed.

End PyStrProofs.

(** * Properties of the API key check *)

Module AuthProofs.
Import PyStr PyStrProofs ServiceConfig Auth.

Lemma elem_of_parsed_api_keys settings k :
  k ∈ parsed_api_keys settings ↔
  k ≠ EmptyString ∧ ∃ w, w ∈ split "," (api_keys settings) ∧ k = strip w.
Proof.
  unfold parsed_api_keys.
  rewrite elem_of_list_to_set, list_elem_of_filter, list_elem_of_fmap.
  split.
  - intros [Hne (w & -> & Hw)]. eauto.
  - intros [Hne (w & Hw & ->)]. eauto.
Qed.

Lemma lstrip_chars_all P s : all_chars P s = true → lstrip_chars P s = EmptyString.
Proof.
  induction s as [|a s IH]; simpl; [done|].
  intros [Ha Hs]%andb_true_iff. rewrite Ha. by apply IH.
Qed.

Lemma split_all_chars P sep s :
  all_chars (λ c, P c || bool_decide (c = sep)) s = true →
  Forall (λ w, all_chars P w = true) (split sep s).
Proof.
  induction s as [|a s IH]; simpl; [by repeat constructor|].
  intros [Ha Hs]%andb_true_iff. specialize (IH Hs).
  case_decide as Hsep; [by constructor|].
  rewrite bool_decide_eq_false_2, orb_false_r in Ha by done.
  destruct (split sep s) as [|w ws]; [repeat constructor; simpl; by rewrite Ha|].
  apply Forall_cons in IH as [Hw Hws]. constructor; [|done].
  simpl. by rewrite Ha, Hw.
Qed.

Lemma parsed_api_keys_shape settings k :
  k ∈ parsed_api_keys settings →
  k ≠ EmptyString ∧ strip k = k ∧ mem "," k = false.
Proof.
  intros (Hne & w & Hw & ->)%elem_of_parsed_api_keys.
  split; [done|]. split; [apply strip_idem|].
  apply mem_strip.
  pose proof (split_no_sep "," (api_keys settings)) as Hall.
  rewrite Forall_forall in Hall. by apply Hall.
Qed.

(** Every configured key is non-empty, has no surrounding whitespace and
    contains no comma. *)
Theorem parsed_api_keys_well_formed settings k :
  k ∈ parsed_api_keys settings →
  k ≠ EmptyString ∧ strip k = k ∧ mem "," k = false.
Proof. apply parsed_api_keys_shape. Qed.

Lemma parsed_api_keys_well_formed_witness :
  let settings := {| core := Config.default_settings; api_keys := " key1 ,key2,, ";
                     upstream_base := ""; upstream_model := ""; upstream_api_key := "";
                     model_name := ""; lora_id := ""; database_url := "" |} in
  "key1" ∈ parsed_api_keys settings ∧
  "key1" ≠ EmptyString ∧ strip "key1" = "key1" ∧ mem "," "key1" = false.
Proof.
  intros settings.
  assert (Hin : "key1" ∈ parsed_api_keys settings) by (vm_compute; set_solver).
  split; [exact Hin|]. exact (parsed_api_keys_well_formed settings "key1" Hin).
Defined.

(** A key list made only of commas and whitespace (the empty list
    included) configures no key: authentication is disabled and every
    request, with or without a header, gets the empty identity. *)
Theorem blank_api_keys_disable_auth settings x_api_key :
  all_chars (λ c, isspace c || bool_decide (c = ","%char)) (api_keys settings) = true →
  parsed_api_keys settings = ∅ ∧
  get_current_identity settings x_api_key = inr EmptyString.
Proof.
  intros Hblank.
  assert (Hempty : parsed_api_keys settings = ∅).
  { apply elem_of_equiv_empty_L. intros k (Hne & w & Hw & ->)%elem_of_parsed_api_keys.
    pose proof (split_all_chars isspace "," _ Hblank) as Hall.
    rewrite Forall_forall in Hall. specialize (Hall w Hw).
    apply Hne. unfold strip. by rewrite lstrip_chars_all. }
  split; [done|]. unfold get_current_identity. by rewrite decide_True.
Qed.

Lemma blank_api_keys_disable_auth_witness :
  let settings := {| core := Config.default_settings; api_keys := " , ,";
                     upstream_base := ""; upstream_model := ""; upstream_api_key := "";
                     model_name := ""; lora_id := ""; database_url := "" |} in
  parsed_api_keys settings = ∅ ∧
  get_current_identity settings (Some "anything") = inr EmptyString.
Proof.
  intros settings. apply blank_api_keys_disable_auth. vm_compute. reflexivity.
Defined.

(** When [get_current_identity] returns, either no key is configured and
    the identity is empty, or the identity is a configured key, not empty,
    and is the stripped header the client sent; every exception it raises
    is a 401. *)
Theorem get_current_identity_sound settings x_api_key :
  match get_current_identity settings x_api_key with
  | inr identity =>
      (parsed_api_keys settings = ∅ ∧ identity = EmptyString) ∨
      (identity ∈ parsed_api_keys settings ∧ identity ≠ EmptyString ∧
       ∃ header, x_api_key = Some header ∧ identity = strip header)
  | inl e =>
      parsed_api_keys settings ≠ ∅ ∧ RateLimit.status_code e = 401
  end.
Proof.
  unfold get_current_identity.
  case_decide as Hkeys; [by left|].
  destruct x_api_key as [[|c header]|]; [done| |done].
  case_decide as Hin; [|done].
  right. split; [done|]. split; [|by eauto].
  by apply parsed_api_keys_shape in Hin as [? _].
Qed.

(** A configured key is accepted with any whitespace around it, and the
    identity is the bare key. *)
Theorem padded_key_accepted settings key a b :
  key ∈ parsed_api_keys settings →
  all_chars isspace a = true → all_chars isspace b = true →
  get_current_identity settings (Some (a +:+ key +:+ b)) = inr key.
Proof.
  intros Hin Ha Hb.
  destruct (parsed_api_keys_shape _ _ Hin) as (Hne & Hs & _).
  unfold get_current_identity.
  rewrite decide_False by set_solver.
  assert (Hstrip : strip (a +:+ key +:+ b) = key) by by apply strip_padded.
  destruct (a +:+ key +:+ b) as [|c header] eqn:Hh.
  { by rewrite <- Hstrip in Hne. }
  rewrite Hstrip. by rewrite decide_True.
Qed.

Lemma padded_key_accepted_witness :
  let settings := {| core := Config.default_settings; api_keys := "key1,key2";
                     upstream_base := ""; upstream_model := ""; upstream_api_key := "";
                     model_name := ""; lora_id := ""; database_url := "" |} in
  "key2" ∈ parsed_api_keys settings ∧
  get_current_identity settings (Some ("  " +:+ "key2" +:+ " ")) = inr "key2".
Proof.
  intros settings.
  assert (Hin : "key2" ∈ parsed_api_keys settings) by (vm_compute; set_solver).
  split; [exact Hin|].
  apply (padded_key_accepted settings "key2" "  " " " Hin); reflexivity.
Defined.

(** Joining well-formed keys with commas and parsing the result gives back
    exactly those keys. *)
Theorem parsed_api_keys_of_join settings keys :
  Forall (λ k, k ≠ EmptyString ∧ strip k = k ∧ mem "," k = false) keys →
  api_keys settings = join "," keys →
  parsed_api_keys settings = list_to_set keys.
Proof.
  intros Hkeys Hjoin. unfold parsed_api_keys. rewrite Hjoin.
  destruct keys as [|k keys]; [done|].
  rewrite split_join; [|done|].
  2:{ eapply Forall_impl; [exact Hkeys|]. by intros k' (_ & _ & ?). }
  f_equal. clear Hjoin.
  induction Hkeys as [|k' keys' (Hne & Hs & _) Hkeys IH]; [done|].
  rewrite fmap_cons, filter_cons, Hs. rewrite decide_True by done. by rewrite IH.
Qed.

Lemma parsed_api_keys_of_join_witness :
  let settings := {| core := Config.default_settings; api_keys := "key1,key2";
                     upstream_base := ""; upstream_model := ""; upstream_api_key := "";
                     model_name := ""; lora_id := ""; database_url := "" |} in
  parsed_api_keys settings = list_to_set ["key1"; "key2"].
Proof.
  intros settings. apply parsed_api_keys_of_join; [|reflexivity].
  repeat constructor; (discriminate || reflexivity).
Defined.

End AuthProofs.

(** * Properties of the conversation memory *)

Module MemoryProofs.
Import Memory.

#[local] Instance id_le_total : Total id_le.
Proof. intros r1 r2. unfold id_le. lia. Qed.

#[local] Instance id_le_trans : Transitive id_le.
Proof. intros r1 r2 r3. unfold id_le. lia. Qed.

Lemma next_id_above (db : list Message) : Forall (λ row, id row < next_id db) db.
Proof.
  unfold next_id. induction db as [|row db IH]; [constructor|].
  rewrite fmap_cons. cbn [foldr]. constructor; [lia|].
  eapply Forall_impl; [exact IH|]. intros r Hr. simpl in Hr. lia.
Qed.

Lemma next_id_pos (db : list Message) : 1 ≤ next_id db.
Proof.
  unfold next_id. assert (0 ≤ foldr Z.max 0 (id <$> db)); [|lia].
  induction db as [|row db IH]; [done|]. rewrite fmap_cons. cbn [foldr]. lia.
Qed.

Lemma Forall_filter_keep_id {A} (P Q : A → Prop) `{!∀ x, Decision (Q x)} l :
  Forall P l → Forall P (filter Q l).
Proof.
  rewrite !Forall_forall. intros Hall x [_ Hx]%list_elem_of_filter. auto.
Qed.

Lemma StronglySorted_filter {A} (R : relation A) (Q : A → Prop)
    `{!∀ x, Decision (Q x)} l :
  StronglySorted R l → StronglySorted R (filter Q l).
Proof.
  induction 1 as [|x l Hs IH Hx]; [constructor|].
  rewrite filter_cons. case_decide; [|done].
  constructor; [done|]. by apply Forall_filter_keep_id.
Qed.

(** The keys of the table are at least 1 and strictly increasing in
    insertion order, after any sequence of operations. *)
Lemma run_ids ops :
  StronglySorted (λ r1 r2, id r1 < id r2) (run ops) ∧
  Forall (λ row, 1 ≤ id row) (run ops).
Proof.
  unfold run. induction ops as [|op ops [IHs IHp]] using rev_ind; simpl.
  { split; constructor. }
  rewrite foldl_snoc. destruct op as [sid role content tokens|sid]; simpl.
  - unfold add_message. split.
    + apply StronglySorted_app_2; [|done|repeat constructor].
      intros r1 r2 Hr1 ->%list_elem_of_singleton. simpl.
      pose proof (next_id_above (foldl apply_op [] ops)) as Hall.
      rewrite Forall_forall in Hall. by apply Hall.
    + apply Forall_app. split; [done|]. apply Forall_singleton. simpl.
      apply next_id_pos.
  - unfold clear_session. split.
    + by apply StronglySorted_filter.
    + rewrite Forall_forall in *. intros row [_ Hrow]%list_elem_of_filter. auto.
Qed.

Lemma same_id_same_row (db : list Message) r1 r2 :
  StronglySorted (λ r1 r2, id r1 < id r2) db →
  r1 ∈ db → r2 ∈ db → id r1 = id r2 → r1 = r2.
Proof.
  induction 1 as [|row db Hs IH Hrow]; intros H1 H2 Hid; [by inv H1|].
  rewrite Forall_forall in Hrow.
  apply elem_of_cons in H1 as [->|H1], H2 as [->|H2]; [done| | |by apply IH].
  - specialize (Hrow _ H2). lia.
  - specialize (Hrow _ H1). lia.
Qed.

(** Ordering by key leaves a table in insertion order as it is. *)
Lemma merge_sort_sorted_rows (rows : list Message) :
  StronglySorted (λ r1 r2, id r1 < id r2) rows → merge_sort id_le rows = rows.
Proof.
  intros Hs. apply (Sorted_unique_strong id_le).
  - intros r1 r2 H1 H2 Hle1 Hle2. rewrite merge_sort_Permutation in H1.
    apply (same_id_same_row rows); [done..|]. unfold id_le in *. lia.
  - apply Sorted_merge_sort. apply _.
  - apply StronglySorted_Sorted.
    clear -Hs. induction Hs as [|row db Hs IH Hrow]; constructor; [done|].
    eapply Forall_impl; [exact Hrow|]. intros r Hr. unfold id_le. simpl in Hr. lia.
  - apply merge_sort_Permutation.
Qed.

Lemma get_messages_run ops sid :
  get_messages (run ops) sid =
    (λ row, {| dict_role := role row; dict_content := content row;
               dict_tokens := tokens row |})
    <$> filter (λ row, session_id row = sid) (run ops).
Proof.
  unfold get_messages. rewrite merge_sort_sorted_rows; [done|].
  apply StronglySorted_filter. apply run_ids.
Qed.

Lemma filter_cleared_same (db : list Message) sid :
  filter (λ row, session_id row = sid) (clear_session db sid) = [].
Proof.
  unfold clear_session. induction db as [|row db IH]; [done|].
  rewrite filter_cons. case_decide; [|done].
  rewrite filter_cons. by rewrite decide_False.
Qed.

Lemma filter_cleared_other (db : list Message) s sid :
  s ≠ sid →
  filter (λ row, session_id row = sid) (clear_session db s)
  = filter (λ row, session_id row = sid) db.
Proof.
  intros Hs. unfold clear_session. induction db as [|row db IH]; [done|].
  rewrite !filter_cons. case_decide as Hrow.
  - rewrite filter_cons. case_decide; by rewrite IH.
  - rewrite decide_False by congruence. done.
Qed.

Lemma history_run ops sid : get_messages (run ops) sid = history sid ops.
Proof.
  induction ops as [|op ops IH] using rev_ind; [done|].
  rewrite get_messages_run. rewrite get_messages_run in IH.
  unfold run, history in *. rewrite !foldl_snoc, <- IH.
  destruct op as [s role content tokens|s]; simpl.
  - unfold add_message. rewrite filter_app, fmap_app.
    rewrite filter_cons, filter_nil. simpl.
    case_decide; [done|]. by rewrite fmap_nil, app_nil_r.
  - case_decide as Hs.
    + subst s. by rewrite filter_cleared_same.
    + by rewrite filter_cleared_other.
Qed.

(** The table behaves as one list per session: whatever the sequence of
    [add_message] and [clear_session] calls on the empty table,
    [get_messages] returns the messages added to the session since its last
    clearing, in the order they were added, and nothing of other
    sessions. *)
Theorem get_messages_is_history ops sid :
  get_messages (run ops) sid = history sid ops.
Proof. apply history_run. Qed.

(** After any sequence of operations the primary keys of the table are at
    least 1, unique and increasing in insertion order. *)
Theorem table_keys_increasing ops :
  StronglySorted (λ r1 r2, id r1 < id r2) (run ops) ∧
  NoDup (id <$> run ops) ∧
  Forall (λ row, 1 ≤ id row) (run ops).
Proof.
  destruct (run_ids ops) as [Hs Hp]. split; [done|]. split; [|done].
  clear Hp. induction Hs as [|row db Hs IH Hrow]; [constructor|].
  rewrite fmap_cons. constructor; [|done].
  intros (r & Hid & Hr)%list_elem_of_fmap.
  rewrite Forall_forall in Hrow. specialize (Hrow _ Hr). lia.
Qed.

Lemma join_snoc sep parts x :
  PyStr.join sep (parts ++ [x]) =
    match parts with
    | [] => x
    | _ => PyStr.join sep parts +:+ sep +:+ x
    end.
Proof.
  induction parts as [|p parts IH]; [done|].
  destruct parts as [|q parts]; [done|].
  change (PyStr.join sep ((p :: q :: parts) ++ [x])) with
    (p +:+ sep +:+ PyStr.join sep ((q :: parts) ++ [x])).
  rewrite IH.
  change (PyStr.join sep (p :: q :: parts)) with
    (p +:+ sep +:+ PyStr.join sep (q :: parts)).
  by rewrite !PyStrProofs.append_assoc.
Qed.

(** Adding a message to a session appends its content to the session's
    context: on a new line after the context so far, or as the whole
    context when the session had no message. *)
Theorem get_context_after_add ops sid role content tokens :
  get_context (add_message (run ops) sid role content tokens) sid =
    match get_messages (run ops) sid with
    | [] => content
    | _ => get_context (run ops) sid +:+ Reducer.newline +:+ content
    end.
Proof.
  change (add_message (run ops) sid role content tokens)
    with (apply_op (run ops) (Add sid role content tokens)).
  unfold get_context.
  assert (Hrun : apply_op (run ops) (Add sid role content tokens)
                 = run (ops ++ [Add sid role content tokens])).
  { unfold run. by rewrite foldl_snoc. }
  rewrite Hrun, !history_run. unfold history. rewrite foldl_snoc. simpl.
  rewrite decide_True by done. rewrite fmap_app.
  change (dict_content <$> [?d]) with [dict_content d]. rewrite join_snoc. simpl.
  by destruct (foldl (history_step sid) [] ops).
Qed.

End MemoryProofs.

(** * Properties of the upstream call *)

Module UpstreamProofs.
Import PyStr PyStrProofs PyJson Upstream.

Lemma strip_nonempty_fixed c s :
  isspace c = false → rstrip_chars isspace (String c s) = String c s →
  strip (String c s) = String c s.
Proof. intros Hc Hr. unfold strip. by rewrite lstrip_chars_fixed. Qed.

(** A line [data: ] followed by a stripped text other than [[DONE]] hands
    exactly that text to [json.loads]. *)
Lemma data_of_frame text :
  strip text = text → text ≠ "[DONE]" →
  data_of_line ("data: " +:+ text) = Some text.
Proof.
  intros Hs Hne. unfold data_of_line.
  rewrite decide_False by done.
  assert (Hdata : strip (drop_chars 5 ("data: " +:+ text)) = text).
  { change (drop_chars 5 ("data: " +:+ text)) with (" " +:+ text).
    destruct text as [|c text]; [done|].
    rewrite <- (append_empty_r (String c text)) at 1.
    by apply strip_padded. }
  assert (Hdone : strip ("data: " +:+ text) ≠ "data: [DONE]").
  { destruct text as [|c text]; [by vm_compute|].
    destruct (strip_fixed _ Hs) as [Hl Hr].
    pose proof (lstrip_chars_head _ _ _ _ Hl) as Hc.
    assert (Hstrip : strip ("data: " +:+ String c text) = "data: " +:+ String c text).
    { unfold strip.
      change ("data: " +:+ String c text) with (String "d" ("ata: " +:+ String c text)).
      rewrite lstrip_chars_fixed by done.
      change (String "d" ("ata: " +:+ String c text))
        with ("data: " +:+ String c text).
      assert (Happ : ∀ pre, rstrip_chars isspace (pre +:+ String c text)
                            = pre +:+ String c text).
      { induction pre as [|a pre IH].
        - exact Hr.
        - change (String a pre +:+ String c text)
            with (String a (pre +:+ String c text)).
          change (rstrip_chars isspace (String a (pre +:+ String c text))) with
            (match rstrip_chars isspace (pre +:+ String c text) with
             | EmptyString => if isspace a then EmptyString else String a EmptyString
             | r => String a r
             end).
          rewrite IH. by destruct pre. }
      apply Happ. }
    rewrite Hstrip. intros Heq. apply Hne.
    apply (inj (String.append "data: ")). exact Heq. }
  rewrite decide_False by done. by rewrite Hdata.
Qed.

Lemma data_of_blank : data_of_line EmptyString = None.
Proof. done. Qed.

Lemma data_of_done : data_of_line "data: [DONE]" = None.
Proof. by vm_compute. Qed.

(** A stream in the provider's format is read back event by event: when
    every text is stripped, is not the end marker and is decoded by
    [json.loads], the generator yields the decoded events in order, skips
    the blank lines and the end marker, and ends without raising. *)
Theorem event_generator_reads_frames loads texts events :
  Forall (λ text, strip text = text ∧ text ≠ "[DONE]") texts →
  Forall2 (λ text event, loads text = Some event) texts events →
  event_generator loads (sse_frames texts) = (events, false).
Proof.
  intros Htexts Hloads. unfold sse_frames.
  induction Hloads as [|text event texts events Hload Hloads IH].
  { change (event_generator loads ["data: [DONE]"] = ([], false)).
    cbn [event_generator]. by rewrite data_of_done. }
  apply Forall_cons in Htexts as [[Hs Hne] Htexts].
  rewrite fmap_cons. simpl concat. rewrite <- !app_comm_cons.
  cbn [event_generator].
  rewrite data_of_frame by done. rewrite Hload, data_of_blank.
  by rewrite (IH Htexts).
Qed.

Lemma event_generator_reads_frames_witness :
  let loads text :=
    if decide (text = "{}") then Some (JDict ∅)
    else if decide (text = "[]") then Some (JList []) else None in
  Forall (λ text, strip text = text ∧ text ≠ "[DONE]") ["{}"; "[]"] ∧
  Forall2 (λ text event, loads text = Some event) ["{}"; "[]"] [JDict ∅; JList []] ∧
  event_generator loads ["data: {}"; ""; "data: []"; ""; "data: [DONE]"]
  = ([JDict ∅; JList []], false).
Proof.
  intros loads.
  assert (H1 : Forall (λ text, strip text = text ∧ text ≠ "[DONE]") ["{}"; "[]"])
    by (repeat constructor; discriminate).
  assert (H2 : Forall2 (λ text event, loads text = Some event)
                 ["{}"; "[]"] [JDict ∅; JList []]) by (repeat constructor).
  split; [exact H1|]. split; [exact H2|].
  exact (event_generator_reads_frames loads ["{}"; "[]"] [JDict ∅; JList []] H1 H2).
Defined.

(** Trailing slashes of the configured base do not change the URL posted
    to: it is the base without them followed by the path, so base and path
    are always joined by exactly one slash. *)
Theorem url_ignores_trailing_slashes settings settings' slashes
    messages model stream authorization extra :
  all_chars (λ c, bool_decide (c = "/"%char)) slashes = true →
  ServiceConfig.upstream_base settings'
    = ServiceConfig.upstream_base settings +:+ slashes →
  url (request_of settings' messages model stream authorization extra)
    = url (request_of settings messages model stream authorization extra) ∧
  ∃ stem, url (request_of settings messages model stream authorization extra)
          = stem +:+ "/v1/chat/completions" ∧
          rstrip_chars (λ c, bool_decide (c = "/"%char)) stem = stem.
Proof.
  intros Hsl Hbase. unfold request_of; simpl. rewrite Hbase.
  rewrite rstrip_chars_app by done. split; [done|].
  eexists. split; [done|]. apply rstrip_chars_idem.
Qed.

Lemma url_ignores_trailing_slashes_witness :
  let settings := ServiceConfig.default_settings in
  let settings' :=
    {| ServiceConfig.core := Config.default_settings;
       ServiceConfig.api_keys := "dev-key";
       ServiceConfig.upstream_base := "https://api.openai.com//";
       ServiceConfig.upstream_model := "gpt-3.5-turbo";
       ServiceConfig.upstream_api_key := "";
       ServiceConfig.model_name := "mistralai/Mistral-7B-v0.2";
       ServiceConfig.lora_id := "";
       ServiceConfig.database_url := "sqlite:///./memory.db" |} in
  url (request_of settings' (JList []) JNull (JBool false) None None)
  = "https://api.openai.com/v1/chat/completions".
Proof.
  intros settings settings'.
  destruct (url_ignores_trailing_slashes settings settings' "//"
              (JList []) JNull (JBool false) None None eq_refl eq_refl) as [-> _].
  reflexivity.
Defined.

End UpstreamProofs.

(** * Properties of the request handler *)

Module MainProofs.
Import PyJson Main.

Lemma call_llm_json settings post loads messages model stream authorization extra
    result :
  Upstream.call_llm settings post loads messages model stream authorization extra
    = Upstream.CallJson result →
  truthy stream = false ∧
  ∃ resp,
    post (Upstream.request_of settings messages model stream authorization extra)
      = Some resp ∧
    Upstream.json resp = Some result.
Proof.
  unfold Upstream.call_llm. intros Hc.
  repeat case_match; simplify_eq; eauto.
Qed.

Lemma call_llm_stream settings post loads messages model stream authorization extra
    events raised :
  Upstream.call_llm settings post loads messages model stream authorization extra
    = Upstream.CallStream events raised →
  truthy stream = true ∧
  ∃ resp,
    post (Upstream.request_of settings messages model stream authorization extra)
      = Some resp ∧
    Upstream.event_generator loads (Upstream.lines resp) = (events, raised).
Proof.
  unfold Upstream.call_llm. intros Hc.
  repeat case_match; simplify_eq; eauto.
Qed.

(** What [reply_of] returns for a dict, read off the body. *)
Lemma reply_of_dict d r :
  reply_of (JDict d) = Some r →
  if truthy (default (JList []) (d !! "choices")) then
    ∃ first rest message reply_content,
      d !! "choices" = Some (JList (first :: rest)) ∧
      get first "message" (JDict ∅) = Some message ∧
      get message "content" (JStr EmptyString) = Some (JStr reply_content) ∧
      r = Some (reply_content, Z.of_nat (PyStr.count_words reply_content))
  else r = None.
Proof.
  unfold reply_of. simpl.
  destruct (d !! "choices") as [choices|] eqn:Hc; simpl; [|by intros [= <-]].
  destruct (truthy choices); [|by intros [= <-]].
  destruct choices as [| | | | |[|first rest]|]; try done.
  destruct (get first "message" (JDict ∅)) as [message|] eqn:Hm; [|done].
  simpl.
  destruct (get message "content" (JStr EmptyString)) as [[| | | |reply| |]|] eqn:Hr;
    simpl; try done.
  intros [= <-]. by exists first, rest, message, reply.
Qed.

Lemma run_add ops sid role content tokens :
  Memory.add_message (Memory.run ops) sid role content tokens
  = Memory.run (ops ++ [Memory.Add sid role content tokens]).
Proof. unfold Memory.run. by rewrite foldl_app. Qed.

Section WithCollaborators.
Variable tokenizer : string → list Z.
Variable decode : list Z → string.
Variable retrieval_heads : list (Z * Z).
Variable attentions : list Z → Z → Z → nat → Q.
Variable post : Upstream.Request → option Upstream.HttpResponse.
Variable loads : string → option Json.
Variable dumps : Json → string.
Variable settings : ServiceConfig.Settings.

#[local] Notation "'handle'" :=
  (chat_completions tokenizer decode retrieval_heads attentions post loads dumps settings).
#[local] Notation "'compress'" :=
  (Compression.compress tokenizer decode retrieval_heads attentions
     (ServiceConfig.core settings)).

(** A request answered with an [HTTPException] (400, 422 or 429) stores
    nothing in the conversation memory and is not forwarded upstream; the
    limiter is untouched unless the exception is the limiter's own
    rejection. *)
Theorem http_error_stores_nothing now limiter db body identity authorization
    x_session_id e :
  outcome (handle now limiter db body identity authorization x_session_id)
    = HttpError e →
  Main.db (handle now limiter db body identity authorization x_session_id) = db ∧
  forwarded (handle now limiter db body identity authorization x_session_id) = None ∧
  (Main.limiter (handle now limiter db body identity authorization x_session_id)
     = limiter ∨
   ∃ tokens_before,
     RateLimit.check now limiter identity tokens_before
     = (Main.limiter (handle now limiter db body identity authorization x_session_id),
        RateLimit.Raised e)).
Proof.
  unfold chat_completions.
  repeat case_match; simpl; intros; simplify_eq; eauto.
Qed.

(** A request reaches the provider only after the limiter accepted it,
    and the limiter is asked with the token count before compression of
    the stored context of the session, whatever the provider then does. *)
Theorem forwarded_request_was_charged now limiter db body identity authorization
    x_session_id request :
  forwarded (handle now limiter db body identity authorization x_session_id)
    = Some request →
  ∃ query condensed_context tokens_before tokens_after,
    compress query (Memory.get_context db (session_of x_session_id identity))
      = Reducer.Ok (condensed_context, tokens_before, tokens_after) ∧
    tokens_after ≤ tokens_before ∧
    RateLimit.check now limiter identity tokens_before
      = (Main.limiter (handle now limiter db body identity authorization x_session_id),
         RateLimit.Returned).
Proof.
  unfold chat_completions.
  repeat case_match; simpl; intros; simplify_eq;
    (eexists _, _, _, _; split_and!; [eassumption| |eassumption]);
    eapply ReducerProofs.reduce_after_le_before; eassumption.
Qed.

(** A [JSONResponse] carries the body the provider returned, unchanged,
    for a request whose [stream] field is falsy, and that body holds no
    float that is not finite.  By then the handler has written the three
    [x-tokens] headers on the injected [response] object, not on the
    [JSONResponse] it returns: the counts [compress] returned and their
    difference, which is never negative. *)
Theorem json_response_is_upstream_body now limiter db payload identity authorization
    x_session_id content :
  outcome (handle now limiter db (Some payload) identity authorization x_session_id)
    = JsonResponse content →
  truthy (default (JBool false) (payload !! "stream")) = false ∧
  allow_nan_false content = true ∧
  (∃ request resp,
     forwarded (handle now limiter db (Some payload) identity authorization x_session_id)
       = Some request ∧
     post request = Some resp ∧
     Upstream.json resp = Some content) ∧
  ∃ query condensed_context tokens_before tokens_after,
    compress query (Memory.get_context db (session_of x_session_id identity))
      = Reducer.Ok (condensed_context, tokens_before, tokens_after) ∧
    response_headers
      (handle now limiter db (Some payload) identity authorization x_session_id)
      = Some {| x_tokens_before := tokens_before;
                x_tokens_after := tokens_after;
                x_tokens_saved := tokens_before - tokens_after |} ∧
    0 ≤ tokens_before - tokens_after.
Proof.
  unfold chat_completions.
  repeat case_match; simpl; intros; simplify_eq;
    match goal with
    | H : Upstream.call_llm _ _ _ _ _ _ _ _ = Upstream.CallJson _ |- _ =>
        apply call_llm_json in H as (Hs & resp & Hp & Hj)
    end;
    (split_and!;
     [ exact Hs
     | assumption
     | eexists _, resp; split_and!; [reflexivity|exact Hp|exact Hj]
     | eexists _, _, _, _; split_and!; [eassumption|reflexivity|] ]);
    match goal with
    | H : Compression.compress _ _ _ _ _ _ _ = _ |- _ =>
        apply ReducerProofs.reduce_after_le_before in H; lia
    end.
Qed.

(** A [StreamingResponse] is sent for a request whose [stream] field is
    truthy; it has one chunk per event [event_generator] yields from the
    lines of the provider, [data: ] followed by the dumped event and two
    newlines, and breaks off where the generator raises. *)
Theorem stream_response_relays_events now limiter db payload identity authorization
    x_session_id chunks aborted :
  outcome (handle now limiter db (Some payload) identity authorization x_session_id)
    = StreamResponse chunks aborted →
  truthy (default (JBool false) (payload !! "stream")) = true ∧
  ∃ request resp events,
    forwarded (handle now limiter db (Some payload) identity authorization x_session_id)
      = Some request ∧
    post request = Some resp ∧
    Upstream.event_generator loads (Upstream.lines resp) = (events, aborted) ∧
    chunks = (λ event, "data: " +:+ dumps event +:+ Reducer.newline +:+ Reducer.newline)
               <$> events.
Proof.
  unfold chat_completions.
  repeat case_match; simpl; intros; simplify_eq;
    match goal with
    | H : Upstream.call_llm _ _ _ _ _ _ _ _ = Upstream.CallStream _ _ |- _ =>
        apply call_llm_stream in H as (Hs & resp & Hp & He)
    end;
    (split; [exact Hs|]);
    (eexists _, resp, _; split_and!; [reflexivity|exact Hp|exact He|reflexivity]).
Qed.


(** What a turn answered with a [JSONResponse] has stored: the user
    message, and the reply [reply_of] found in a body that is a dict. *)
Lemma json_response_rows now limiter db payload identity authorization
    x_session_id content :
  outcome (handle now limiter db (Some payload) identity authorization x_session_id)
    = JsonResponse content →
  ∃ messages current_msg query condensed_context tokens_before tokens_after stored,
    payload !! "messages" = Some (JList messages) ∧
    last messages = Some current_msg ∧
    get current_msg "content" (JStr EmptyString) = Some (JStr query) ∧
    compress query (Memory.get_context db (session_of x_session_id identity))
      = Reducer.Ok (condensed_context, tokens_before, tokens_after) ∧
    match content with
    | JDict _ => reply_of content = Some stored
    | _ => stored = None
    end ∧
    Main.db (handle now limiter db (Some payload) identity authorization x_session_id)
    = match stored with
      | Some (reply_content, reply_tokens) =>
          Memory.add_message
            (Memory.add_message db (session_of x_session_id identity) "user" query
               tokens_after)
            (session_of x_session_id identity) "assistant" reply_content reply_tokens
      | None =>
          Memory.add_message db (session_of x_session_id identity) "user" query
            tokens_after
      end.
Proof.
  unfold chat_completions.
  repeat case_match; simpl; intros; simplify_eq;
    (eexists _, _, _, _, _, _, _;
     split_and!;
     [ reflexivity | eassumption | eassumption | eassumption
     | first [ eassumption | reflexivity ]
     | reflexivity ]).
Qed.

(** On a table built by the store's own operations, a turn answered with
    a [JSONResponse] extends the conversation of its session by the user
    message, stored with the token count after compression, and then, if
    and only if the body is a dict whose [choices] are truthy, by the
    [content] of the [message] of the first choice, stored with its
    number of words; the conversation of every other session stays as it
    was. *)
Theorem json_turn_extends_history now limiter ops payload identity authorization
    x_session_id content :
  outcome (handle now limiter (Memory.run ops) (Some payload) identity authorization
             x_session_id)
    = JsonResponse content →
  ∃ messages current_msg query condensed_context tokens_before tokens_after reply,
    payload !! "messages" = Some (JList messages) ∧
    last messages = Some current_msg ∧
    get current_msg "content" (JStr EmptyString) = Some (JStr query) ∧
    compress query
      (Memory.get_context (Memory.run ops) (session_of x_session_id identity))
      = Reducer.Ok (condensed_context, tokens_before, tokens_after) ∧
    match content with
    | JDict d =>
        if truthy (default (JList []) (d !! "choices")) then
          ∃ first rest message reply_content,
            d !! "choices" = Some (JList (first :: rest)) ∧
            get first "message" (JDict ∅) = Some message ∧
            get message "content" (JStr EmptyString) = Some (JStr reply_content) ∧
            reply = [ {| Memory.dict_role := "assistant";
                         Memory.dict_content := reply_content;
                         Memory.dict_tokens :=
                           Z.of_nat (PyStr.count_words reply_content) |} ]
        else reply = []
    | _ => reply = []
    end ∧
    ∀ sid,
      Memory.get_messages
        (Main.db (handle now limiter (Memory.run ops) (Some payload) identity
                    authorization x_session_id)) sid
      = Memory.get_messages (Memory.run ops) sid ++
        (if decide (session_of x_session_id identity = sid)
         then {| Memory.dict_role := "user"; Memory.dict_content := query;
                 Memory.dict_tokens := tokens_after |} :: reply
         else []).
Proof.
  intros Ho.
  destruct (json_response_rows _ _ _ _ _ _ _ _ Ho)
    as (messages & current_msg & query & condensed_context & tokens_before
        & tokens_after & stored & Hm & Hl & Hq & Hc & Hst & Hdb).
  exists messages, current_msg, query, condensed_context, tokens_before, tokens_after,
    (match stored with
     | Some (reply_content, reply_tokens) =>
         [ {| Memory.dict_role := "assistant"; Memory.dict_content := reply_content;
              Memory.dict_tokens := reply_tokens |} ]
     | None => []
     end).
  split_and!; [done|done|done|done| |].
  - destruct content as [| | | | | |d]; try by subst.
    apply reply_of_dict in Hst.
    destruct (truthy (default (JList []) (d !! "choices"))); [|by subst].
    destruct Hst as (first & rest & message & reply_content & ? & ? & ? & ->).
    by exists first, rest, message, reply_content.
  - intros sid. rewrite Hdb.
    destruct stored as [[reply_content reply_tokens]|];
      rewrite !run_add, !MemoryProofs.history_run;
      unfold Memory.history; rewrite !foldl_app; simpl;
      repeat case_decide; try done; by rewrite ?app_nil_r, <- ?app_assoc.
Qed.

End WithCollaborators.

#[local] Notation "'scenario_handle'" :=
  (chat_completions Reducer.char_tokenizer Reducer.char_decode []
     Reducer.scenario_attentions scenario_post scenario_loads scenario_dumps
     ServiceConfig.default_settings).

Lemma http_error_stores_nothing_witness :
  let limiter := RateLimit.__init__ Config.default_settings 60 10 in
  let r := scenario_handle 5 limiter [] (Some (scenario_body "hi" false)) "alice"
             None None in
  outcome r = HttpError RateLimit.TOKEN_RATE_EXCEEDED ∧
  Main.db r = [] ∧
  forwarded r = None ∧
  (Main.limiter r = limiter ∨
   ∃ tokens_before,
     RateLimit.check 5 limiter "alice" tokens_before
     = (Main.limiter r, RateLimit.Raised RateLimit.TOKEN_RATE_EXCEEDED)).
Proof.
  intros limiter r.
  assert (Hr : outcome r = HttpError RateLimit.TOKEN_RATE_EXCEEDED)
    by (vm_compute; reflexivity).
  split; [exact Hr|].
  exact (http_error_stores_nothing Reducer.char_tokenizer Reducer.char_decode []
           Reducer.scenario_attentions scenario_post scenario_loads scenario_dumps
           ServiceConfig.default_settings 5 limiter [] _ "alice" None None _ Hr).
Defined.

Lemma forwarded_request_was_charged_witness :
  let limiter := RateLimit.get_rate_limiter Config.default_settings in
  let r := scenario_handle 5 limiter [] (Some (scenario_body "hi" false)) "alice"
             None None in
  let request :=
    Upstream.request_of ServiceConfig.default_settings
      (JList [JDict {[ "role" := JStr "user"; "content" := JStr "hi" ]}])
      (JStr "gpt-3.5-turbo") (JBool false) None None in
  forwarded r = Some request ∧
  ∃ query condensed_context tokens_before tokens_after,
    Compression.compress Reducer.char_tokenizer Reducer.char_decode []
      Reducer.scenario_attentions Config.default_settings query
      (Memory.get_context [] (session_of None "alice"))
      = Reducer.Ok (condensed_context, tokens_before, tokens_after) ∧
    tokens_after ≤ tokens_before ∧
    RateLimit.check 5 limiter "alice" tokens_before
      = (Main.limiter r, RateLimit.Returned).
Proof.
  intros limiter r request.
  assert (Hr : forwarded r = Some request) by (vm_compute; reflexivity).
  split; [exact Hr|].
  exact (forwarded_request_was_charged Reducer.char_tokenizer Reducer.char_decode []
           Reducer.scenario_attentions scenario_post scenario_loads scenario_dumps
           ServiceConfig.default_settings 5 limiter [] _ "alice" None None _ Hr).
Defined.

Lemma json_response_is_upstream_body_witness :
  let limiter := RateLimit.get_rate_limiter Config.default_settings in
  let payload := scenario_body "hi" false in
  let r := scenario_handle 5 limiter [] (Some payload) "alice" None None in
  outcome r = JsonResponse scenario_completion ∧
  truthy (default (JBool false) (payload !! "stream")) = false ∧
  allow_nan_false scenario_completion = true ∧
  (∃ request resp,
     forwarded r = Some request ∧
     scenario_post request = Some resp ∧
     Upstream.json resp = Some scenario_completion) ∧
  ∃ query condensed_context tokens_before tokens_after,
    Compression.compress Reducer.char_tokenizer Reducer.char_decode []
      Reducer.scenario_attentions Config.default_settings query
      (Memory.get_context [] (session_of None "alice"))
      = Reducer.Ok (condensed_context, tokens_before, tokens_after) ∧
    response_headers r
      = Some {| x_tokens_before := tokens_before;
                x_tokens_after := tokens_after;
                x_tokens_saved := tokens_before - tokens_after |} ∧
    0 ≤ tokens_before - tokens_after.
Proof.
  intros limiter payload r.
  assert (Hr : outcome r = JsonResponse scenario_completion)
    by (vm_compute; reflexivity).
  split; [exact Hr|].
  exact (json_response_is_upstream_body Reducer.char_tokenizer Reducer.char_decode []
           Reducer.scenario_attentions scenario_post scenario_loads scenario_dumps
           ServiceConfig.default_settings 5 limiter [] payload "alice" None None _ Hr).
Defined.

Lemma stream_response_relays_events_witness :
  let limiter := RateLimit.get_rate_limiter Config.default_settings in
  let payload := scenario_body "hi" true in
  let db := Memory.run [Memory.Add "alice" "user" "abc" 3] in
  let r := scenario_handle 5 limiter db (Some payload) "alice" None None in
  outcome r
    = StreamResponse ["data: {delta}" +:+ Reducer.newline +:+ Reducer.newline] false ∧
  truthy (default (JBool false) (payload !! "stream")) = true ∧
  ∃ request resp events,
    forwarded r = Some request ∧
    scenario_post request = Some resp ∧
    Upstream.event_generator scenario_loads (Upstream.lines resp) = (events, false) ∧
    ["data: {delta}" +:+ Reducer.newline +:+ Reducer.newline]
    = (λ event, "data: " +:+ scenario_dumps event +:+ Reducer.newline +:+ Reducer.newline)
        <$> events.
Proof.
  intros limiter payload db r.
  assert (Hr : outcome r
               = StreamResponse ["data: {delta}" +:+ Reducer.newline +:+ Reducer.newline]
                   false)
    by (vm_compute; reflexivity).
  split; [exact Hr|].
  exact (stream_response_relays_events Reducer.char_tokenizer Reducer.char_decode []
           Reducer.scenario_attentions scenario_post scenario_loads scenario_dumps
           ServiceConfig.default_settings 5 limiter db payload "alice" None None _ _
           Hr).
Defined.

(** A body with a float that is not a number: the provider has answered,
    both rows are stored and the headers are written, and then building
    the [JSONResponse] raises. *)
Remark nan_body_stored_then_raises :
  let limiter := RateLimit.get_rate_limiter Config.default_settings in
  let r :=
    chat_completions Reducer.char_tokenizer Reducer.char_decode []
      Reducer.scenario_attentions scenario_nan_post scenario_loads scenario_dumps
      ServiceConfig.default_settings 5 limiter [] (Some (scenario_body "hi" false))
      "alice" None None in
  allow_nan_false scenario_nan_completion = false ∧
  outcome r = Unhandled ∧
  Memory.get_messages (Main.db r) "alice"
  = [ {| Memory.dict_role := "user"; Memory.dict_content := "hi";
         Memory.dict_tokens := 0 |};
      {| Memory.dict_role := "assistant"; Memory.dict_content := "hello there";
         Memory.dict_tokens := 2 |} ] ∧
  response_headers r
  = Some {| x_tokens_before := 21; x_tokens_after := 0; x_tokens_saved := 21 |}.
Proof. intros limiter r. repeat split; vm_compute; reflexivity. Qed.

Lemma json_turn_extends_history_witness :
  let limiter := RateLimit.get_rate_limiter Config.default_settings in
  let payload := scenario_body "hi" false in
  let ops := [Memory.Add "bob" "user" "abc" 3] in
  let r := scenario_handle 5 limiter (Memory.run ops) (Some payload) "alice" None None in
  outcome r = JsonResponse scenario_completion ∧
  ∃ messages current_msg query condensed_context tokens_before tokens_after reply,
    payload !! "messages" = Some (JList messages) ∧
    last messages = Some current_msg ∧
    get current_msg "content" (JStr EmptyString) = Some (JStr query) ∧
    Compression.compress Reducer.char_tokenizer Reducer.char_decode []
      Reducer.scenario_attentions Config.default_settings query
      (Memory.get_context (Memory.run ops) (session_of None "alice"))
      = Reducer.Ok (condensed_context, tokens_before, tokens_after) ∧
    match scenario_completion with
    | JDict d =>
        if truthy (default (JList []) (d !! "choices")) then
          ∃ first rest message reply_content,
            d !! "choices" = Some (JList (first :: rest)) ∧
            get first "message" (JDict ∅) = Some message ∧
            get message "content" (JStr EmptyString) = Some (JStr reply_content) ∧
            reply = [ {| Memory.dict_role := "assistant";
                         Memory.dict_content := reply_content;
                         Memory.dict_tokens :=
                           Z.of_nat (PyStr.count_words reply_content) |} ]
        else reply = []
    | _ => reply = []
    end ∧
    ∀ sid,
      Memory.get_messages (Main.db r) sid
      = Memory.get_messages (Memory.run ops) sid ++
        (if decide (session_of None "alice" = sid)
         then {| Memory.dict_role := "user"; Memory.dict_content := query;
                 Memory.dict_tokens := tokens_after |} :: reply
         else []).
Proof.
  intros limiter payload ops r.
  assert (Hr : outcome r = JsonResponse scenario_completion)
    by (vm_compute; reflexivity).
  split; [exact Hr|].
  exact (json_turn_extends_history Reducer.char_tokenizer Reducer.char_decode []
           Reducer.scenario_attentions scenario_post scenario_loads scenario_dumps
           ServiceConfig.default_settings 5 limiter ops payload "alice" None None _ Hr).
Defined.

End MainProofs.
